(** * discorm/base-driver: the record lifecycle engine of [index.js]

    A shallow embedding of [BaseModel] (src/index.js) together with the
    in-memory [Model] subclass of the test-suite, followed by the
    properties of the lifecycle engine and of the collection algorithms.

    Modelling choices.
    - A JavaScript value is a [value]; numbers are integer-valued ([Z]); an
      object is the finite map of its own enumerable string-keyed
      properties.  Functions and symbols are not modelled.
    - A record (an instance of [BaseModel] or of a subclass) is an object
      with identity: it lives in a heap and is named by its address, so that
      the same instance reached twice is the same address.  An address the
      heap does not hold stands for an object without own properties.  The field bag of
      a record holds its data properties; the members of the class ([emit],
      [set], [isNew], ...) are not shadowed by data.
    - The methods a subclass may override ([emit], [_fetch], [_save],
      [_update], [_remove], [findIterator]) are the fields of [Subclass.t];
      a method left out dispatches to the body [BaseModel] gives it.
    - An [async] method is a computation over the store that returns,
      throws, or never settles, and that hands back the trace of the calls
      the engine made on the overridable methods while it ran.
    - A lazy sequence is pulled one item at a time; a loop that drains one
      takes fuel, the number of pulls it may make.
    [makeModel], which only names a subclass, is left out. *)

From stdpp Require Import gmap strings list fin_maps pretty.

Set Warnings "-register-all".
Open Scope string_scope.
Open Scope list_scope.
Open Scope nat_scope.

(** ** JavaScript values *)

Module JS.

Inductive value :=
| VUndefined
| VNull
| VBool (b : bool)
| VNum (n : Z)
| VStr (s : string)
| VObj (m : gmap string value).

(** [!v] is [negb (truthy v)]. *)
Definition truthy (v : value) : bool :=
  match v with
  | VUndefined | VNull => false
  | VBool b => b
  | VNum n => negb (n =? 0)%Z
  | VStr s => negb (String.eqb s "")
  | VObj _ => true
  end.

(** [typeof v === 'object'] *)
Definition typeof_object (v : value) : bool :=
  match v with
  | VNull | VObj _ => true
  | _ => false
  end.

(** The property key [o[v]] reads or writes. *)
Definition to_property_key (v : value) : string :=
  match v with
  | VUndefined => "undefined"
  | VNull => "null"
  | VBool true => "true"
  | VBool false => "false"
  | VNum n => pretty n
  | VStr s => s
  | VObj _ => "[object Object]"
  end.

(** [a === b]; two object operands are taken to be distinct objects. *)
Definition strict_equals (a b : value) : bool :=
  match a, b with
  | VUndefined, VUndefined | VNull, VNull => true
  | VBool x, VBool y => Bool.eqb x y
  | VNum x, VNum y => (x =? y)%Z
  | VStr x, VStr y => String.eqb x y
  | _, _ => false
  end.

(** The own enumerable string-keyed properties [Object.assign] copies from
    a source: those of an object, the indexed characters of a string,
    nothing for the other primitives. *)
Definition own_enumerable (v : value) : gmap string value :=
  match v with
  | VObj m => m
  | VStr s =>
      list_to_map
        (imap (λ (i : nat) c, (pretty i, VStr (String c ""))) (String.list_ascii_of_string s))
  | _ => ∅
  end.

(** [Object.assign(target, ...sources)]: later sources win. *)
Definition object_assign (target : gmap string value) (sources : list value)
  : gmap string value :=
  foldl (λ acc src, own_enumerable src ∪ acc) target sources.


End JS.
Export JS.

(** ** Errors, settled computations, the store and the trace *)

(** The three error classes of index.js; [Foreign] is whatever an overriding
    method of a subclass throws. *)
Inductive error :=
| RecordNotFound
| NotImplemented (method : string)
| UnsavedModel (action : string)
| Foreign (message : string).

(** How an awaited call ends: it returns, it throws, or it never settles
    ([Pending]; also the answer of a loop that ran out of fuel). *)
Inductive settled (E A : Type) :=
| Return (a : A)
| Throw (e : E)
| Pending.
Arguments Return {E A} a.
Arguments Throw {E A} e.
Arguments Pending {E A}.

(** A record is named by its address in the heap. *)
Definition loc := nat.

(** The heap of records and the state [W] of the backing store. *)
Record store (W : Type) := Store {
  heap : gmap loc (gmap string value);
  world : W
}.
Arguments Store {W} heap world.
Arguments heap {W} s.
Arguments world {W} s.

(** How a pull on a lazy sequence ended. *)
Inductive pulled :=
| Yielded (item : loc)
| Done
| Failed.

(** The calls the engine makes on the overridable methods. *)
Inductive obs :=
| Emit (this : loc) (event : string)
| Call (this : loc) (method : string)
| FindIterator (query : value)
| Next (p : pulled)
| IterReturn.

(** Code of a subclass: it reads and writes the store and throws errors of
    its own. *)
Definition DM (W A : Type) : Type := store W → settled string A * store W.

(** Code of the engine: as [DM], with the trace of the calls made. *)
Definition M (W A : Type) : Type := store W → settled error A * store W * list obs.

Definition ret {W A} (a : A) : M W A := λ st, (Return a, st, []).

Definition throw {W A} (e : error) : M W A := λ st, (Throw e, st, []).

Definition bind {W A B} (m : M W A) (f : A → M W B) : M W B :=
  λ st,
    match m st with
    | (Return a, st1, t1) =>
        match f a st1 with
        | (r, st2, t2) => (r, st2, t1 ++ t2)
        end
    | (Throw e, st1, t1) => (Throw e, st1, t1)
    | (Pending, st1, t1) => (Pending, st1, t1)
    end.

Notation "x <- m ;; k" := (bind m (λ x, k))
  (at level 100, m at next level, right associativity).
Notation "m ;; k" := (bind m (λ _, k))
  (at level 100, right associativity).

(** [try { m } finally { c }] as a [for await] loop uses it when its body
    throws: the clean-up runs and is awaited, what it answers is dropped,
    and the error of the body is thrown again. *)
Definition closing {W A} (m : M W A) (c : M W unit) : M W A :=
  λ st,
    match m st with
    | (Throw e, st1, t1) =>
        match c st1 with
        | (Pending, st2, t2) => (Pending, st2, t1 ++ t2)
        | (_, st2, t2) => (Throw e, st2, t1 ++ t2)
        end
    | r => r
    end.

(** A call on a method of the subclass, recorded as [o]. *)
Definition invoke {W A} (o : obs) (d : DM W A) : M W A :=
  λ st,
    match d st with
    | (Return a, st1) => (Return a, st1, [o])
    | (Throw msg, st1) => (Throw (Foreign msg), st1, [o])
    | (Pending, st1) => (Pending, st1, [o])
    end.

(** A computation that never settles. *)
Definition pending {W A} : M W A := λ st, (Pending, st, []).

(** ** The overridable methods *)

Module Subclass.

(** What a class that extends [BaseModel] may override.  [I] is the state
    of the lazy sequence its [findIterator] hands out; [next] and
    [return_] are the two methods of that sequence the engine calls
    ([it.next()], and [it.return()] when a [for await] loop is left
    early). *)
Record t (W I : Type) := Make {
  emit : option (loc → string → DM W unit);
  _fetch : option (loc → DM W value);
  _save : option (loc → DM W value);
  _update : option (loc → DM W value);
  _remove : option (loc → DM W value);
  findIterator : option (value → DM W I);
  next : I → DM W (option (loc * I));
  return_ : I → DM W unit
}.
Arguments Make {W I}.
Arguments emit {W I} _.
Arguments _fetch {W I} _.
Arguments _save {W I} _.
Arguments _update {W I} _.
Arguments _remove {W I} _.
Arguments findIterator {W I} _.
Arguments next {W I} _.
Arguments return_ {W I} _.

End Subclass.

(** ** class BaseModel *)

Module BaseModel.

(** The sequence [findIterator] returns: the generator of [BaseModel]
    itself, or the one of the subclass. *)
Inductive iterator (I : Type) :=
| BaseGenerator
| Overridden (i : I).
Arguments BaseGenerator {I}.
Arguments Overridden {I} i.

(** The own properties of the record at [this]. *)
Definition fields_of (h : gmap loc (gmap string value)) (this : loc)
  : gmap string value :=
  default ∅ (h !! this).

(** [set] on the field bag, when [key] is not an object:
    [if (!key) return; this[key] = value]. *)
Definition assign_key (key value : JS.value) (f : gmap string JS.value)
  : gmap string JS.value :=
  if negb (truthy key) then f else <[to_property_key key := value]> f.

(** [set (key, value)] on the field bag. *)
Definition set_fields (key value : JS.value) (f : gmap string JS.value)
  : gmap string JS.value :=
  if negb (truthy key) then f
  else if typeof_object key then
    map_fold (λ k v acc, assign_key (VStr k) v acc) f (own_enumerable key)
  else assign_key key value f.

(** The store once the record at [this] holds the own properties [f]. *)
Definition put {W} (this : loc) (f : gmap string value) (st : store W) : store W :=
  Store (<[this := f]> (heap st)) (world st).

Section Instance.
Context {W I : Type} (C : Subclass.t W I).

Definition get (this : loc) (key : string) : M W value :=
  λ st, (Return (default VUndefined (fields_of (heap st) this !! key)), st, []).

Definition set (this : loc) (key value : JS.value) : M W unit :=
  λ st, (Return tt, put this (set_fields key value (fields_of (heap st) this)) st, []).

(** [emit () {}] unless overridden. *)
Definition emit (this : loc) (event : string) : M W unit :=
  match Subclass.emit C with
  | None => λ st, (Return tt, st, [Emit this event])
  | Some f => invoke (Emit this event) (f this event)
  end.


Definition isNew (this : loc) : M W bool :=
  id <- get this "id" ;;
  ret (negb (truthy id)).

(** A storage primitive: the override, or the body that throws. *)
Definition primitive (override : option (loc → DM W value)) (name : string)
    (this : loc) : M W value :=
  match override with
  | None => λ st, (Throw (NotImplemented ("model." ++ name)%string), st, [Call this name])
  | Some f => invoke (Call this name) (f this)
  end.

Definition _fetch : loc → M W value := primitive (Subclass._fetch C) "_fetch".
Definition _save : loc → M W value := primitive (Subclass._save C) "_save".
Definition _update : loc → M W value := primitive (Subclass._update C) "_update".
Definition _remove : loc → M W value := primitive (Subclass._remove C) "_remove".

Definition fetch (this : loc) : M W loc :=
  new <- isNew this ;;
  if new then throw (UnsavedModel "fetch") else
  emit this "beforeFetch" ;;
  r <- _fetch this ;;
  set this r VUndefined ;;
  emit this "afterFetch" ;;
  ret this.

Definition update (this : loc) (data : value) : M W loc :=
  new <- isNew this ;;
  if new then throw (UnsavedModel "update") else
  (if truthy data then set this data VUndefined else ret tt) ;;
  emit this "validate" ;;
  emit this "beforeUpdate" ;;
  emit this "beforeSave" ;;
  r <- _update this ;;
  set this r VUndefined ;;
  emit this "afterSave" ;;
  emit this "afterUpdate" ;;
  ret this.

Definition save (this : loc) : M W loc :=
  new <- isNew this ;;
  if negb new then update this VUndefined else
  emit this "validate" ;;
  emit this "beforeCreate" ;;
  emit this "beforeSave" ;;
  r <- _save this ;;
  set this r VUndefined ;;
  emit this "afterSave" ;;
  emit this "afterCreate" ;;
  ret this.

Definition remove (this : loc) : M W loc :=
  new <- isNew this ;;
  if new then throw (UnsavedModel "remove") else
  emit this "beforeRemove" ;;
  _remove this ;;
  set this (VStr "id") VUndefined ;;
  emit this "afterRemove" ;;
  ret this.

End Instance.

(** The static methods.  A loop that drains a sequence takes fuel: the
    number of pulls it may make. *)
Module Static.

(** An async generator of [BaseModel] wrapped around [findIterator]:
    not started, suspended at its [yield], or finished. *)
Inductive generator (I : Type) :=
| SuspendedStart
| SuspendedYield (it : iterator I)
| Completed.
Arguments SuspendedStart {I}.
Arguments SuspendedYield {I} it.
Arguments Completed {I}.

Section Static.
Context {W I : Type} (C : Subclass.t W I).

(** [new this ()] before its constructor runs. *)
Definition new : M W loc :=
  λ st,
    let this := fresh (dom (heap st)) in
    (Return this, put this ∅ st, []).

Definition build (data : value) : M W loc :=
  this <- new ;;
  set this data VUndefined ;;
  ret this.

Definition create (data : value) : M W loc :=
  this <- build data ;;
  save C this.

(** [static async * findIterator (query) { throw ... }] unless
    overridden: the call builds the generator, the body runs at the
    first pull. *)
Definition findIterator (query : value) : M W (iterator I) :=
  match Subclass.findIterator C with
  | None => λ st, (Return BaseGenerator, st, [FindIterator query])
  | Some f =>
      i <- invoke (FindIterator query) (f query) ;;
      ret (Overridden i)
  end.

(** [await it.next()] *)
Definition next (it : iterator I) : M W (option (loc * iterator I)) :=
  match it with
  | BaseGenerator =>
      λ st, (Throw (NotImplemented "Model.findIterator"), st, [Next Failed])
  | Overridden i =>
      λ st,
        match Subclass.next C i st with
        | (Return (Some (item, i')), st1) =>
            (Return (Some (item, Overridden i')), st1, [Next (Yielded item)])
        | (Return None, st1) => (Return None, st1, [Next Done])
        | (Throw msg, st1) => (Throw (Foreign msg), st1, [Next Failed])
        | (Pending, st1) => (Pending, st1, [Next Failed])
        end
  end.

(** [await it.return()], as a [for await] loop calls it when it is
    left before the sequence is done. *)
Definition return_ (it : iterator I) : M W unit :=
  match it with
  | BaseGenerator => λ st, (Return tt, st, [IterReturn])
  | Overridden i => invoke IterReturn (Subclass.return_ C i)
  end.

(** [for await (const item of it) items.push(item); return items] *)
Fixpoint collect {G : Type} (fuel : nat) (pull : G → M W (option (loc * G)))
    (it : G) (items : list loc) : M W (list loc) :=
  match fuel with
  | 0 => pending
  | S fuel' =>
      x <- pull it ;;
      match x with
      | None => ret items
      | Some (item, it') => collect fuel' pull it' (items ++ [item])
      end
  end.

Definition findOne (query : value) : M W (option loc) :=
  it <- findIterator query ;;
  x <- next it ;;
  match x with
  | Some (model, it') => return_ it' ;; ret (Some model)
  | None => ret None
  end.

Definition findOrCreate (query data : value) : M W loc :=
  let data := match data with VUndefined => VObj ∅ | _ => data end in
  doc <- findOne query ;;
  match doc with
  | Some doc => ret doc
  | None => create (VObj (object_assign ∅ [data; query]))
  end.

Definition findById (id : value) : M W loc :=
  doc <- findOne (VObj {["id" := id]}) ;;
  match doc with
  | None => throw RecordNotFound
  | Some doc => ret doc
  end.

Definition find (query : value) (fuel : nat) : M W (list loc) :=
  it <- findIterator query ;;
  collect fuel next it [].

Definition asyncIterator : M W (iterator I) := findIterator (VObj ∅).

Definition createOrUpdate (query data : value) : M W loc :=
  doc <- findOne query ;;
  match doc with
  | Some doc => BaseModel.update C doc data
  | None => create (VObj (object_assign ∅ [query; data]))
  end.

(** One round of the loop of a wrapping generator: pull an item, run
    [body] on it, yield what it returns. *)
Definition round (body : loc → M W loc) (it : iterator I)
  : M W (option (loc * generator I)) :=
  x <- next it ;;
  match x with
  | None => ret None
  | Some (item, it') =>
      r <- closing (body item) (return_ it') ;;
      ret (Some (r, SuspendedYield it'))
  end.

(** [next()] on a generator that wraps [findIterator (query)]. *)
Definition resume (query : value) (body : loc → M W loc) (g : generator I)
  : M W (option (loc * generator I)) :=
  match g with
  | SuspendedStart => it <- findIterator query ;; round body it
  | SuspendedYield it => round body it
  | Completed => ret None
  end.

(** [updateIterator (query, data)]: the generator, and its [next]. *)
Definition updateIterator (query data : value) : generator I := SuspendedStart.

Definition updateIterator_next (query data : value)
  : generator I → M W (option (loc * generator I)) :=
  resume query (λ item, BaseModel.update C item data).

Definition update (query data : value) (fuel : nat) : M W (list loc) :=
  collect fuel (updateIterator_next query data) (updateIterator query data) [].

Definition updateOne (query data : value) : M W (option loc) :=
  doc <- findOne query ;;
  match doc with
  | None => ret None
  | Some doc => r <- BaseModel.update C doc data ;; ret (Some r)
  end.

Definition updateById (id data : value) : M W loc :=
  doc <- updateOne (VObj {["id" := id]}) data ;;
  match doc with
  | None => throw RecordNotFound
  | Some doc => ret doc
  end.

Definition removeIterator (query : value) : generator I := SuspendedStart.

Definition removeIterator_next (query : value)
  : generator I → M W (option (loc * generator I)) :=
  resume query (λ item, BaseModel.remove C item).

Definition remove (query : value) (fuel : nat) : M W (list loc) :=
  collect fuel (removeIterator_next query) (removeIterator query) [].

Definition removeOne (query : value) : M W (option loc) :=
  doc <- findOne query ;;
  match doc with
  | None => ret None
  | Some doc => r <- BaseModel.remove C doc ;; ret (Some r)
  end.

Definition removeById (id : value) : M W loc :=
  doc <- removeOne (VObj {["id" := id]}) ;;
  match doc with
  | None => throw RecordNotFound
  | Some doc => ret doc
  end.

Fixpoint count_loop (fuel : nat) (it : iterator I) (count : nat) : M W nat :=
  match fuel with
  | 0 => pending
  | S fuel' =>
      x <- next it ;;
      match x with
      | None => ret count
      | Some (_, it') => count_loop fuel' it' (count + 1)
      end
  end.

Definition count (query : value) (fuel : nat) : M W nat :=
  it <- findIterator query ;;
  count_loop fuel it 0.

End Static.
End Static.

(** [BaseModel] itself: nothing is overridden. *)
Definition base {W : Type} : Subclass.t W Empty_set :=
  Subclass.Make None None None None None None
    (λ i : Empty_set, match i with end) (λ i : Empty_set, match i with end).

End BaseModel.

(** ** class Model extends BaseModel (the in-memory store of the tests) *)

Module Model.

(** [Model.data] is an array of stored objects and [Model.hooks] the
    array of the events emitted.  Stored objects and arrays are shared and
    updated in place, so both are kept by address: [objs] holds the
    stored objects, [arrays] the arrays built so far, [data] the address
    of the array [Model.data] names now. *)
Record statics := Statics {
  objs : list (gmap string value);
  arrays : list (list nat);
  data : nat;
  hooks : list string
}.

(** [Model.reset (data)] with [data] written as a literal. *)
Definition reset (items : list (gmap string value)) : store statics :=
  Store ∅ (Statics items [seq 0 (length items)] 0 []).

Definition obj (w : statics) (o : nat) : gmap string value := default ∅ (objs w !! o).

Definition array (w : statics) (a : nat) : list nat := default [] (arrays w !! a).

(** [o.id] *)
Definition id_of (f : gmap string value) : value := default VUndefined (f !! "id").

(** [isSubset (superset, subset)] of the package is-subset, for a stored
    object and a query whose entries are primitive values (an entry that
    holds an object does not match). *)
Definition isSubset (superset : gmap string value) (subset : value) : bool :=
  match subset with
  | VObj m =>
      forallb
        (λ kv, match superset !! kv.1 with
               | Some y => strict_equals y kv.2
               | None => false
               end)
        (map_to_list m)
  | _ => false
  end.

Definition emit (this : loc) (event : string) : DM statics unit :=
  λ st,
    let w := world st in
    (Return tt, Store (heap st) (Statics (objs w) (arrays w) (data w) (hooks w ++ [event]))).

(** [Model.data.filter(v => v.id === id)] *)
Definition with_id (w : statics) (id : value) : list nat :=
  List.filter (λ o, strict_equals (id_of (obj w o)) id) (array w (data w)).

Definition _fetch (this : loc) : DM statics value :=
  λ st,
    match with_id (world st) (id_of (BaseModel.fields_of (heap st) this)) with
    | o :: _ => (Return (VObj (obj (world st) o)), st)
    | [] => (Return VUndefined, st)
    end.

Definition _save (this : loc) : DM statics value :=
  λ st,
    let w := world st in
    let length := List.length (array w (data w)) in
    let data := BaseModel.fields_of (heap st) this ∪ {["id" := VNum (Z.of_nat length + 1)]} in
    let o := List.length (objs w) in
    (Return (VObj data),
     Store (heap st)
       (Statics (objs w ++ [data])
              (<[Model.data w := array w (Model.data w) ++ [o]]> (arrays w))
              (Model.data w) (hooks w))).

Definition _update (this : loc) : DM statics value :=
  λ st,
    let w := world st in
    let fields := BaseModel.fields_of (heap st) this in
    match with_id w (id_of fields) with
    | [] => (Throw "TypeError: Cannot convert undefined or null to object", st)
    | o :: _ =>
        let w' := Statics (<[o := fields ∪ obj w o]> (objs w)) (arrays w) (data w) (hooks w) in
        _fetch this (Store (heap st) w')
    end.

Definition _remove (this : loc) : DM statics value :=
  λ st,
    let w := world st in
    let id := id_of (BaseModel.fields_of (heap st) this) in
    let kept := List.filter (λ o, negb (strict_equals (id_of (obj w o)) id)) (array w (data w)) in
    (Return VUndefined,
     Store (heap st) (Statics (objs w) (arrays w ++ [kept]) (List.length (arrays w)) (hooks w))).

(** Where the generator of [findIterator] stands: not started, in the
    loop over the array [filter] built, or in the loop over [Model.data]
    itself (a falsy query). *)
Inductive cursor :=
| Start (query : value)
| Filtered (rest : list nat)
| Live (a : nat) (index : nat).

(** [this.build (item)] *)
Definition build (item : gmap string value) : DM statics loc :=
  λ st,
    let this := fresh (dom (heap st)) in
    (Return this, BaseModel.put this (BaseModel.set_fields (VObj item) VUndefined ∅) st).

Definition findIterator (query : value) : DM statics cursor :=
  λ st, (Return (Start query), st).

(** The loop [for (const item of items) yield this.build (item)]. *)
Definition loop (c : cursor) : DM statics (option (loc * cursor)) :=
  λ st,
    match c with
    | Start _ => (Return None, st)
    | Filtered [] => (Return None, st)
    | Filtered (o :: rest) =>
        match build (obj (world st) o) st with
        | (Return this, st1) => (Return (Some (this, Filtered rest)), st1)
        | (Throw e, st1) => (Throw e, st1)
        | (Pending, st1) => (Pending, st1)
        end
    | Live a index =>
        match array (world st) a !! index with
        | None => (Return None, st)
        | Some o =>
            match build (obj (world st) o) st with
            | (Return this, st1) => (Return (Some (this, Live a (index + 1))), st1)
            | (Throw e, st1) => (Throw e, st1)
            | (Pending, st1) => (Pending, st1)
            end
        end
    end.

Definition next (c : cursor) : DM statics (option (loc * cursor)) :=
  λ st,
    match c with
    | Start query =>
        let w := world st in
        if truthy query
        then loop (Filtered (List.filter (λ o, isSubset (obj w o) query) (array w (data w)))) st
        else loop (Live (data w) 0) st
    | _ => loop c st
    end.

(** The generator has no [finally]: leaving it early runs nothing. *)
Definition return_ (c : cursor) : DM statics unit := λ st, (Return tt, st).

Definition class : Subclass.t statics cursor :=
  Subclass.Make (Some emit) (Some _fetch) (Some _save) (Some _update) (Some _remove)
    (Some findIterator) next return_.

End Model.

(** ** Vocabulary of the properties *)

(** [this.isNew], read off the heap. *)
Definition is_new (h : gmap loc (gmap string value)) (this : loc) : bool :=
  negb (truthy (default VUndefined (BaseModel.fields_of h this !! "id"))).

(** The hooks a trace emits, in order, each with the record it was emitted
    on. *)
Definition emitted (t : list obs) : list (loc * string) :=
  flat_map (λ o, match o with Emit this event => [(this, event)] | _ => [] end) t.

(** The storage primitives a trace invokes, in order. *)
Definition primitives (t : list obs) : list (loc * string) :=
  flat_map (λ o, match o with Call this method => [(this, method)] | _ => [] end) t.

(** The number of pulls a trace makes on a lazy sequence. *)
Definition pulls (t : list obs) : nat :=
  length (List.filter (λ o, match o with Next _ => true | _ => false end) t).

Definition create_sequence : list string :=
  ["validate"; "beforeCreate"; "beforeSave"; "afterSave"; "afterCreate"].

Definition update_sequence : list string :=
  ["validate"; "beforeUpdate"; "beforeSave"; "afterSave"; "afterUpdate"].

Definition remove_sequence : list string := ["beforeRemove"; "afterRemove"].


(** The life cycle of one record, hooks and primitive. *)
Definition create_trace (this : loc) : list obs :=
  [Emit this "validate"; Emit this "beforeCreate"; Emit this "beforeSave";
   Call this "_save"; Emit this "afterSave"; Emit this "afterCreate"].

Definition update_trace (this : loc) : list obs :=
  [Emit this "validate"; Emit this "beforeUpdate"; Emit this "beforeSave";
   Call this "_update"; Emit this "afterSave"; Emit this "afterUpdate"].

Definition remove_trace (this : loc) : list obs :=
  [Emit this "beforeRemove"; Call this "_remove"; Emit this "afterRemove"].

Definition fetch_trace (this : loc) : list obs :=
  [Emit this "beforeFetch"; Call this "_fetch"; Emit this "afterFetch"].

(** The hooks of the subclass only observe: [emit] may fail and may change
    the backing store, it leaves the records alone. *)
Definition observers {W I} (C : Subclass.t W I) : Prop :=
  ∀ f this event st, Subclass.emit C = Some f → heap (f this event st).2 = heap st.



(** The lazy sequence of the subclass stays within the relation [R] on
    stores. *)
Definition sequence_within {W I} (C : Subclass.t W I) (R : relation (store W)) : Prop :=
  (∀ f query st, Subclass.findIterator C = Some f → R st (f query st).2) ∧
  (∀ i st, R st (Subclass.next C i st).2) ∧
  (∀ i st, R st (Subclass.return_ C i st).2).

(** The records the heap held are as they were, and so is the backing
    store. *)
Definition untouched {W} : relation (store W) :=
  λ st st', world st' = world st ∧ ∀ l, l ∈ dom (heap st) → heap st' !! l = heap st !! l.

(** The computation never throws [RecordNotFound]. *)
Definition quiet {W A} (m : M W A) : Prop :=
  ∀ st, (m st).1.1 ≠ Throw RecordNotFound.

(** The trace [t0] of what ran before, put in front of a run. *)
Definition after {W A} (t0 : list obs) (run : settled error A * store W * list obs)
  : settled error A * store W * list obs :=
  (run.1.1, run.1.2, t0 ++ run.2).

(** The field bag [set] leaves when it merges the mapping [m] into [f]:
    the entries of [m] win, the one under the empty key is dropped. *)
Definition merged (m f : gmap string value) : gmap string value :=
  filter (λ kv, kv.1 ≠ "") m ∪ f.

(** ** Vocabulary of the further properties *)

(** Every run of [m] makes the calls of an initial segment of [T], all of
    [T] when it returns, and throws neither [RecordNotFound] nor
    [UnsavedModel]. *)
Definition runs_within {W A} (m : M W A) (T : list obs) : Prop :=
  ∀ st o st' t,
    m st = (o, st', t) →
    t `prefix_of` T ∧
    (∀ a, o = Return a → t = T) ∧
    (∀ e, o = Throw e → e ≠ RecordNotFound ∧ ∀ action, e ≠ UnsavedModel action).

(** [m] always returns, and calls nothing. *)
Definition silent {W A} (m : M W A) : Prop :=
  ∀ st, ∃ a st', m st = (Return a, st', []).

(** What a run gave, with [f] applied to the value returned. *)
Definition settled_map {E A B} (f : A → B) (o : settled E A) : settled E B :=
  match o with
  | Return a => Return (f a)
  | Throw e => Throw e
  | Pending => Pending
  end.

(** How a bulk operation that threw [e] ended, after the life cycles of
    the records [done]: with [findIterator], with a pull, or with the life
    cycle of the record pulled last, which stopped after the calls [p] and
    had the loop close the sequence. *)
Definition interrupted (cycle : loc → list obs) (action : string) (e : error)
    (done : list loc) (tail : list obs) : Prop :=
  (done = [] ∧ tail = [] ∧ ∀ a, e ≠ UnsavedModel a) ∨
  (tail = [Next Failed] ∧ ∀ a, e ≠ UnsavedModel a) ∨
  (∃ r p, tail = Next (Yielded r) :: p ++ [IterReturn] ∧
          p `prefix_of` cycle r ∧
          ∀ a, e = UnsavedModel a → a = action ∧ p = []).

(** The methods the subclass overrides work on the backing store: hooks
    and primitives leave the records alone. *)
Definition storage_only {W I} (C : Subclass.t W I) : Prop :=
  observers C ∧
  ∀ f, Subclass._fetch C = Some f ∨ Subclass._save C = Some f ∨
       Subclass._update C = Some f ∨ Subclass._remove C = Some f →
       ∀ this st, heap (f this st).2 = heap st.

(** Every run of [m] leaves the records other than [this] as they were. *)
Definition writes_only {W A} (this : loc) (m : M W A) : Prop :=
  ∀ st l, l ≠ this → heap (m st).1.2 !! l = heap st !! l.



(** [Model.hooks] after a run of [m] is [Model.hooks] before it, followed
    by the events the run emitted, in order. *)
Definition logs {A} (m : M Model.statics A) : Prop :=
  ∀ st, Model.hooks (world (m st).1.2)
        = Model.hooks (world st) ++ map snd (emitted (m st).2).



(** ** Scenarios of the test-suite *)

Module Scenario.

(** [{ name: 'a' }] and friends. *)
Definition object (entries : list (string * value)) : value := VObj (list_to_map entries).

(** [Model.reset (); model = new Model ({ name: 'a' })]: the record is at
    address 0. *)
Definition unsaved : store Model.statics :=
  (BaseModel.Static.build (object [("name", VStr "a")]) (Model.reset [])).1.2.

(** [Model.reset (); model = await Model.create ({ name: 'a' })] *)
Definition saved : store Model.statics :=
  (BaseModel.Static.create Model.class (object [("name", VStr "a")]) (Model.reset [])).1.2.


(** [Model.reset ([{ id: 1, test: 'findOne' }])] *)
Definition one_stored : store Model.statics :=
  Model.reset [list_to_map [("id", VNum 1); ("test", VStr "findOne")]].

(** [model = await Model.create ({ name: 'a' }); await model.remove ()] *)
Definition removed : store Model.statics :=
  (BaseModel.remove Model.class 0 saved).1.2.

(** [Model.reset ([{ id: 1 }, { id: 2 }, { id: 3 }])] *)
Definition three_stored : store Model.statics :=
  Model.reset [{["id" := VNum 1]}; {["id" := VNum 2]}; {["id" := VNum 3]}].

(** [Model.reset ([{ id: 1, x: 1 }, { id: 2, x: 1 }])] *)
Definition two_stored : store Model.statics :=
  Model.reset [list_to_map [("id", VNum 1); ("x", VNum 1)];
               list_to_map [("id", VNum 2); ("x", VNum 1)]].


(** The test [placeholders]: [model = Model.build ({})] on a class that
    overrides no primitive, then [model.id = 1]. *)
Definition placeholder_new : store () :=
  (BaseModel.Static.build (object []) (Store ∅ ())).1.2.

Definition placeholder : store () :=
  BaseModel.put 0 {["id" := VNum 1]} placeholder_new.


End Scenario.

(** * Properties *)

Import BaseModel.

(** ** The field bag *)

Lemma set_fields_falsy (key v : value) (f : gmap string value) :
  truthy key = false → set_fields key v f = f.
Proof. intros H. unfold set_fields. by rewrite H. Qed.

Lemma assign_key_string (k : string) (v : value) (f : gmap string value) :
  assign_key (VStr k) v f = if decide (k = "") then f else <[k := v]> f.
Proof.
  unfold assign_key; simpl.
  destruct (String.eqb_spec k "") as [-> | Hne]; simpl; [done |].
  by rewrite decide_False.
Qed.

(** Merging a mapping with [set]: its entries are laid over the bag, the
    one under the empty key left out. *)
Lemma set_fields_object (m : gmap string value) (v : value) (f : gmap string value) :
  set_fields (VObj m) v f = merged m f.
Proof.
  unfold set_fields, merged; simpl.
  apply (map_fold_weak_ind
           (λ r m, r = filter (λ kv : string * value, kv.1 ≠ "") m ∪ f)).
  - by rewrite map_filter_empty, (left_id_L ∅ (∪)).
  - intros k x m' r Hk ->. rewrite assign_key_string.
    destruct (decide (k = "")) as [-> | Hne].
    + rewrite map_filter_insert_False by (simpl; tauto).
      by rewrite delete_id.
    + rewrite map_filter_insert_True by done.
      by rewrite insert_union_l.
Qed.


Lemma merged_lookup_empty_key (m f : gmap string value) :
  merged m f !! "" = f !! "".
Proof.
  unfold merged. rewrite lookup_union.
  assert (filter (λ kv : string * value, kv.1 ≠ "") m !! "" = None) as ->.
  { apply map_lookup_filter_None. right. intros x _. simpl. tauto. }
  by destruct (f !! "").
Qed.


(** ** Running the monad *)

Lemma bind_Return_inv {W A B} (m : M W A) (f : A → M W B) st b st' t :
  bind m f st = (Return b, st', t) →
  ∃ a st1 t1 t2, m st = (Return a, st1, t1) ∧ f a st1 = (Return b, st', t2) ∧ t = t1 ++ t2.
Proof.
  unfold bind. destruct (m st) as [[[a|e|] st1] t1]; try discriminate.
  destruct (f a st1) as [[r st2] t2] eqn:E. intros [= -> -> <-].
  by exists a, st1, t1, t2.
Qed.

Lemma bind_pure {W A B} (m : M W A) (f : A → M W B) st a :
  m st = (Return a, st, []) → bind m f st = f a st.
Proof. intros H. unfold bind. rewrite H. by destruct (f a st) as [[r st2] t2]. Qed.

Lemma bind_run {W A B} (m : M W A) (f : A → M W B) st a st1 t1 :
  m st = (Return a, st1, t1) → bind m f st = after t1 (f a st1).
Proof. intros H. unfold bind, after. rewrite H. by destruct (f a st1) as [[r st2] t2]. Qed.

Lemma isNew_run {W} (this : loc) (st : store W) :
  isNew this st = (Return (is_new (heap st) this), st, []).
Proof. reflexivity. Qed.

Lemma fields_of_put {W} (this l : loc) (f : gmap string value) (st : store W) :
  fields_of (heap (put this f st)) l = if decide (this = l) then f else fields_of (heap st) l.
Proof.
  unfold fields_of, put; simpl. case_decide as E.
  - subst. by rewrite lookup_insert_eq.
  - by rewrite lookup_insert_ne.
Qed.

Lemma emit_inv {W I} (C : Subclass.t W I) this event st r st' t :
  emit C this event st = (r, st', t) →
  t = [Emit this event] ∧ (observers C → heap st' = heap st).
Proof.
  unfold emit. destruct (Subclass.emit C) as [f|] eqn:E.
  - unfold invoke. destruct (f this event st) as [[a|e|] st1] eqn:E1;
      intros [= <- <- <-]; (split; [done |]); intros Hobs;
      specialize (Hobs f this event st E); by rewrite E1 in Hobs.
  - by intros [= <- <- <-].
Qed.

Lemma primitive_inv {W} (override : option (loc → DM W value)) name this st r st' t :
  primitive override name this st = (r, st', t) → t = [Call this name].
Proof.
  unfold primitive. destruct override as [f|].
  - unfold invoke. by destruct (f this st) as [[a|e|] st1]; intros [= <- <- <-].
  - by intros [= <- <- <-].
Qed.

(** One step of a run that returned: split off what ran first. *)
Ltac step H :=
  let a := fresh "a" in
  let s := fresh "s" in
  let t1 := fresh "t" in
  let t2 := fresh "t" in
  let H1 := fresh "Hstep" in
  apply bind_Return_inv in H as (a & s & t1 & t2 & H1 & H & ->).

Ltac hook H :=
  match type of H with
  | emit _ _ _ _ = _ => apply emit_inv in H as [-> H]
  end.

(** The create path of [save], taken apart: the trace, and what the heap
    holds when the hooks only observe. *)
Lemma save_new_inv {W I} (C : Subclass.t W I) this st r st' t :
  is_new (heap st) this = true →
  save C this st = (Return r, st', t) →
  r = this ∧ t = create_trace this ∧
  ∃ s1 v s2,
    _save C this s1 = (Return v, s2, [Call this "_save"]) ∧
    (observers C →
       heap s1 = heap st ∧
       heap st' = heap (put this (set_fields v VUndefined (fields_of (heap s2) this)) s2)).
Proof.
  intros Hnew H. unfold save in H.
  rewrite (bind_pure _ _ _ _ (isNew_run this st)), Hnew in H; simpl in H.
  step H. step H. step H. step H. step H. step H. step H.
  injection H as <- <- <-.
  hook Hstep. hook Hstep0. hook Hstep1. hook Hstep4. hook Hstep5.
  pose proof (primitive_inv _ _ _ _ _ _ _ Hstep2) as ->.
  injection Hstep3 as <- <- <-.
  split; [done |]. split; [done |].
  eexists _, _, _. split; [exact Hstep2 |].
  intros Hobs. split.
  - rewrite Hstep1, Hstep0, Hstep; done.
  - rewrite Hstep5, Hstep4; done.
Qed.

(** The store [update (data)] hands to its hooks: [data] merged when it is
    truthy. *)
Lemma update_merge_run {W} this (data : value) (st : store W) a s t :
  (if truthy data then set this data VUndefined else ret ()) st = (Return a, s, t) →
  t = [] ∧
  s = if truthy data
      then put this (set_fields data VUndefined (fields_of (heap st) this)) st
      else st.
Proof. by destruct (truthy data); intros [= <- <- <-]. Qed.

(** The update path, taken apart. *)
Lemma update_inv {W I} (C : Subclass.t W I) this data st r st' t :
  is_new (heap st) this = false →
  update C this data st = (Return r, st', t) →
  r = this ∧ t = update_trace this ∧
  ∃ s1 v s2,
    _update C this s1 = (Return v, s2, [Call this "_update"]) ∧
    (observers C →
       heap s1 = heap (if truthy data
                       then put this (set_fields data VUndefined (fields_of (heap st) this)) st
                       else st) ∧
       heap st' = heap (put this (set_fields v VUndefined (fields_of (heap s2) this)) s2)).
Proof.
  intros Hold H. unfold update in H.
  rewrite (bind_pure _ _ _ _ (isNew_run this st)), Hold in H; simpl in H.
  step H. step H. step H. step H. step H. step H. step H. step H.
  injection H as <- <- <-.
  apply update_merge_run in Hstep as [-> ->].
  hook Hstep0. hook Hstep1. hook Hstep2. hook Hstep5. hook Hstep6.
  pose proof (primitive_inv _ _ _ _ _ _ _ Hstep3) as ->.
  injection Hstep4 as <- <- <-.
  split; [done |]. split; [done |].
  eexists _, _, _. split; [exact Hstep3 |].
  intros Hobs. split.
  - rewrite Hstep2, Hstep1, Hstep0; done.
  - rewrite Hstep6, Hstep5; done.
Qed.

(** [remove], taken apart. *)
Lemma remove_inv {W I} (C : Subclass.t W I) this st r st' t :
  is_new (heap st) this = false →
  remove C this st = (Return r, st', t) →
  r = this ∧ t = remove_trace this ∧
  ∃ s1 v s2,
    _remove C this s1 = (Return v, s2, [Call this "_remove"]) ∧
    (observers C →
       heap s1 = heap st ∧
       heap st' = heap (put this (<["id" := VUndefined]> (fields_of (heap s2) this)) s2)).
Proof.
  intros Hold H. unfold remove in H.
  rewrite (bind_pure _ _ _ _ (isNew_run this st)), Hold in H; simpl in H.
  step H. step H. step H. step H.
  injection H as <- <- <-.
  hook Hstep. hook Hstep2.
  pose proof (primitive_inv _ _ _ _ _ _ _ Hstep0) as ->.
  injection Hstep1 as <- <- <-.
  split; [done |]. split; [done |].
  eexists _, _, _. split; [exact Hstep0 |].
  intros Hobs. split.
  - by rewrite Hstep.
  - by rewrite Hstep2.
Qed.

(** [fetch], taken apart. *)
Lemma fetch_inv {W I} (C : Subclass.t W I) this st r st' t :
  fetch C this st = (Return r, st', t) →
  is_new (heap st) this = false ∧ r = this ∧ t = fetch_trace this ∧
  ∃ s1 v s2,
    _fetch C this s1 = (Return v, s2, [Call this "_fetch"]) ∧
    (observers C →
       heap s1 = heap st ∧
       heap st' = heap (put this (set_fields v VUndefined (fields_of (heap s2) this)) s2)).
Proof.
  intros H. unfold fetch in H.
  rewrite (bind_pure _ _ _ _ (isNew_run this st)) in H.
  destruct (is_new (heap st) this); [done |]. simpl in H.
  step H. step H. step H. step H.
  injection H as <- <- <-.
  hook Hstep. hook Hstep2.
  pose proof (primitive_inv _ _ _ _ _ _ _ Hstep0) as ->.
  injection Hstep1 as <- <- <-.
  do 3 (split; [done |]).
  eexists _, _, _. split; [exact Hstep0 |].
  intros Hobs. split.
  - by rewrite Hstep.
  - by rewrite Hstep2.
Qed.

Lemma is_new_put {W} this (f : gmap string value) (st : store W) :
  is_new (heap (put this f st)) this = negb (truthy (default VUndefined (f !! "id"))).
Proof. unfold is_new. by rewrite fields_of_put, decide_True. Qed.

(** [save] on a record that is not new is [update ()]. *)
Lemma save_persisted {W I} (C : Subclass.t W I) this (st : store W) :
  is_new (heap st) this = false → save C this st = update C this VUndefined st.
Proof.
  intros Hold. unfold save.
  by rewrite (bind_pure _ _ _ _ (isNew_run this st)), Hold.
Qed.

(** ** The life cycle of one record *)

(** C2. On a record that is new (its [id] unset or falsy), [fetch ()],
    [update (patch)] and [remove ()] each throw [UnsavedModel] naming the
    action; no hook is emitted, no primitive is invoked, and the store,
    hence every field of the record, is as before: the patch is not
    merged. *)
Theorem unsaved_record_rejected {W I} (C : Subclass.t W I) this patch (st : store W) :
  is_new (heap st) this = true →
  fetch C this st = (Throw (UnsavedModel "fetch"), st, []) ∧
  update C this patch st = (Throw (UnsavedModel "update"), st, []) ∧
  remove C this st = (Throw (UnsavedModel "remove"), st, []).
Proof.
  intros Hnew. unfold fetch, update, remove.
  by rewrite !(bind_pure _ _ _ _ (isNew_run this st)), Hnew.
Qed.

Lemma unsaved_record_rejected_witness :
  is_new (heap Scenario.unsaved) 0 = true ∧
  fetch Model.class 0 Scenario.unsaved
    = (Throw (UnsavedModel "fetch"), Scenario.unsaved, []) ∧
  update Model.class 0 (Scenario.object [("name", VStr "b")]) Scenario.unsaved
    = (Throw (UnsavedModel "update"), Scenario.unsaved, []) ∧
  remove Model.class 0 Scenario.unsaved
    = (Throw (UnsavedModel "remove"), Scenario.unsaved, []).
Proof.
  split; [vm_compute; reflexivity |].
  apply (unsaved_record_rejected Model.class 0 _ Scenario.unsaved).
  vm_compute; reflexivity.
Defined.

(** C10. [set (key, value)] with a falsy [key] (among them [undefined],
    [null], the empty string, [0] and [false]) leaves every field of every
    record as it was; so does [set ()]; a record constructed without data
    has no field; and a [fetch ()] whose primitive returns [undefined], or
    any falsy value, leaves the fields as the primitive left them. *)
Theorem set_falsy_key_is_noop {W} this (key v : value) (st : store W) :
  truthy key = false →
  Forall (λ k, truthy k = false) [VUndefined; VNull; VStr ""; VNum 0; VBool false] ∧
  set_fields key v (fields_of (heap st) this) = fields_of (heap st) this ∧
  (∃ st', set this key v st = (Return (), st', []) ∧
          world st' = world st ∧ ∀ l, fields_of (heap st') l = fields_of (heap st) l) ∧
  (∃ st', set this VUndefined VUndefined st = (Return (), st', []) ∧
          world st' = world st ∧ ∀ l, fields_of (heap st') l = fields_of (heap st) l) ∧
  (∃ new st', Static.build VUndefined st = (Return new, st', []) ∧
              heap st !! new = None ∧ fields_of (heap st') new = ∅ ∧
              ∀ l, fields_of (heap st') l = fields_of (heap st) l) ∧
  (∀ I (C : Subclass.t W I) r st' t,
     observers C →
     fetch C this st = (Return r, st', t) →
     ∃ s1 result s2,
       _fetch C this s1 = (Return result, s2, [Call this "_fetch"]) ∧
       heap s1 = heap st ∧
       (truthy result = false → ∀ l, fields_of (heap st') l = fields_of (heap s2) l)).
Proof.
  intros Hkey.
  assert (∀ k, truthy k = false →
            ∃ st', set this k v st = (Return (), st', []) ∧
                   world st' = world st ∧
                   ∀ l, fields_of (heap st') l = fields_of (heap st) l) as Hset.
  { intros k Hk. eexists. split; [reflexivity |]. split; [done |].
    intros l. rewrite fields_of_put, set_fields_falsy by done.
    case_decide; by subst. }
  split; [by repeat constructor |].
  split; [by apply set_fields_falsy |].
  split; [by apply Hset |].
  split.
  { eexists. split; [reflexivity |]. split; [done |].
    intros l. rewrite fields_of_put, set_fields_falsy by done.
    case_decide; by subst. }
  split.
  { pose proof (is_fresh (dom (heap st))) as Hfresh.
    apply not_elem_of_dom in Hfresh.
    eexists _, _. split; [reflexivity |]. split; [done |]. split.
    - by rewrite !fields_of_put, !decide_True.
    - intros l. rewrite !fields_of_put, set_fields_falsy by done.
      case_decide as E; [| done]. subst l.
      case_decide; [| done]. unfold fields_of. by rewrite Hfresh. }
  intros I C r st' t Hobs Hfetch.
  destruct (fetch_inv C this st r st' t Hfetch) as (_ & _ & _ & s1 & result & s2 & Hf & Hheap).
  destruct (Hheap Hobs) as [H1 H2].
  exists s1, result, s2. do 2 (split; [done |]). intros Hresult l.
  rewrite H2, fields_of_put, set_fields_falsy by done.
  case_decide; by subst.
Qed.

Lemma set_falsy_key_is_noop_witness :
  truthy (VStr "") = false ∧
  set_fields (VStr "") (VNum 1) (fields_of (heap Scenario.saved) 0)
    = fields_of (heap Scenario.saved) 0.
Proof.
  split; [reflexivity |].
  apply (set_falsy_key_is_noop 0 (VStr "") (VNum 1) Scenario.saved).
  reflexivity.
Defined.

(** ** Runs that return *)




Lemma after_Return {W A} t0 (run : settled error A * store W * list obs) a st' t :
  run = (Return a, st', t) → after t0 run = (Return a, st', t0 ++ t).
Proof. by intros ->. Qed.




Lemma Model_observers : observers Model.class.
Proof. by intros f this event st [= <-]. Qed.

Lemma emitted_create_trace this : emitted (create_trace this) = map (pair this) create_sequence.
Proof. reflexivity. Qed.

Lemma emitted_update_trace this : emitted (update_trace this) = map (pair this) update_sequence.
Proof. reflexivity. Qed.

Lemma emitted_remove_trace this : emitted (remove_trace this) = map (pair this) remove_sequence.
Proof. reflexivity. Qed.










(** ** The lazy sequence *)

(** Closes a goal [o ≠ Throw RecordNotFound]. *)
Ltac nf := first [done | intros [= ->]; congruence].

Section Sequence.
Context {W I : Type} (C : Subclass.t W I).

Lemma findIterator_inv query st o st' t :
  Static.findIterator C query st = (o, st', t) →
  t = [FindIterator query] ∧
  o ≠ Throw RecordNotFound ∧
  ∀ R : relation (store W), Reflexive R → sequence_within C R → R st st'.
Proof.
  unfold Static.findIterator. destruct (Subclass.findIterator C) as [f|] eqn:E.
  - unfold bind, invoke. destruct (f query st) as [[i|e|] s1] eqn:E1;
      intros [= <- <- <-]; (split; [done |]); (split; [done |]);
      intros R HR (Hf & _ & _); specialize (Hf f query st E); by rewrite E1 in Hf.
  - intros [= <- <- <-]. split; [done |]. split; [done |]. by intros R HR _.
Qed.

Lemma next_inv it st o st' t :
  Static.next C it st = (o, st', t) →
  t = [Next match o with
            | Return (Some (item, _)) => Yielded item
            | Return None => Done
            | _ => Failed
            end] ∧
  o ≠ Throw RecordNotFound ∧
  ∀ R : relation (store W), Reflexive R → sequence_within C R → R st st'.
Proof.
  destruct it as [|i]; simpl.
  - intros [= <- <- <-]. split; [done |]. split; [done |]. by intros R HR _.
  - destruct (Subclass.next C i st) as [[[[item i']|]|e|] s1] eqn:E1;
      intros [= <- <- <-]; (split; [done |]); (split; [done |]);
      intros R HR (_ & Hn & _); specialize (Hn i st); by rewrite E1 in Hn.
Qed.

Lemma return_inv it st o st' t :
  Static.return_ C it st = (o, st', t) →
  t = [IterReturn] ∧
  o ≠ Throw RecordNotFound ∧
  ∀ R : relation (store W), Reflexive R → sequence_within C R → R st st'.
Proof.
  destruct it as [|i]; simpl.
  - intros [= <- <- <-]. split; [done |]. split; [done |]. by intros R HR _.
  - unfold invoke. destruct (Subclass.return_ C i st) as [[[]|e|] s1] eqn:E1;
      intros [= <- <- <-]; (split; [done |]); (split; [done |]);
      intros R HR (_ & _ & Hr); specialize (Hr i st); by rewrite E1 in Hr.
Qed.

(** What [findOne] can do: the calls it makes and how it ends. *)
Lemma findOne_inv query st o st' t :
  Static.findOne C query st = (o, st', t) →
  o ≠ Throw RecordNotFound ∧
  (∀ R : relation (store W), PreOrder R → sequence_within C R → R st st') ∧
  ((∃ model, o = Return (Some model) ∧
             t = [FindIterator query; Next (Yielded model); IterReturn]) ∨
   (o = Return None ∧ t = [FindIterator query; Next Done]) ∨
   ((∀ x, o ≠ Return x) ∧
    (t = [FindIterator query] ∨ t = [FindIterator query; Next Failed] ∨
     ∃ model, t = [FindIterator query; Next (Yielded model); IterReturn]))).
Proof.
  unfold Static.findOne, bind.
  destruct (Static.findIterator C query st) as [[o1 s1] t1] eqn:E1.
  destruct (findIterator_inv _ _ _ _ _ E1) as (-> & Hq1 & HR1).
  destruct o1 as [it|e|]; cycle 1.
  { intros [= <- <- <-]. split; [nf |]. split; [intros R [] ?; by apply HR1 |].
    right; right. split; [done |]. by left. }
  { intros [= <- <- <-]. split; [nf |]. split; [intros R [] ?; by apply HR1 |].
    right; right. split; [done |]. by left. }
  destruct (Static.next C it s1) as [[o2 s2] t2] eqn:E2.
  destruct (next_inv _ _ _ _ _ E2) as (-> & Hq2 & HR2).
  assert (∀ R : relation (store W), PreOrder R → sequence_within C R → R st s2) as HR12.
  { intros R HR HC. transitivity s1; [apply HR1 | apply HR2]; done || apply _. }
  destruct o2 as [[[model it']|]|e|]; cycle 1.
  { intros [= <- <- <-]. split; [nf |]. split; [done |]. right; left. done. }
  { intros [= <- <- <-]. split; [nf |]. split; [done |].
    right; right. split; [done |]. right; by left. }
  { intros [= <- <- <-]. split; [nf |]. split; [done |].
    right; right. split; [done |]. right; by left. }
  destruct (Static.return_ C it' s2) as [[o3 s3] t3] eqn:E3.
  destruct (return_inv _ _ _ _ _ E3) as (-> & Hq3 & HR3).
  assert (∀ R : relation (store W), PreOrder R → sequence_within C R → R st s3) as HR13.
  { intros R HR HC. transitivity s2; [by apply HR12 | apply HR3]; done || apply _. }
  destruct o3 as [[]|e|]; simpl; intros [= <- <- <-].
  - split; [nf |]. split; [done |]. left. by exists model.
  - split; [nf |]. split; [done |]. right; right. split; [done |]. right; right. by exists model.
  - split; [nf |]. split; [done |]. right; right. split; [done |]. right; right. by exists model.
Qed.

End Sequence.

Lemma untouched_refl {W} (st : store W) : untouched st st.
Proof. by split. Qed.

Lemma untouched_trans {W} (s1 s2 s3 : store W) :
  untouched s1 s2 → untouched s2 s3 → untouched s1 s3.
Proof.
  intros [Hw1 Hh1] [Hw2 Hh2]. split; [congruence |].
  intros l Hl. rewrite <- (Hh1 l Hl). apply Hh2.
  apply elem_of_dom. rewrite (Hh1 l Hl). by apply elem_of_dom.
Qed.

#[local] Instance untouched_preorder {W} : PreOrder (@untouched W).
Proof. split; [intros st; apply untouched_refl | intros s1 s2 s3; apply untouched_trans]. Qed.

Lemma untouched_put_fresh {W} (st : store W) (f : gmap string value) :
  untouched st (put (fresh (dom (heap st))) f st).
Proof.
  split; [done |]. intros l Hl. unfold put; simpl.
  apply lookup_insert_ne. intros <-. by apply (is_fresh (dom (heap st))).
Qed.

Lemma Model_loop_untouched c st : untouched st (Model.loop c st).2.
Proof.
  destruct c as [q|[|o rest]|a index]; simpl; try apply untouched_refl.
  - apply untouched_put_fresh.
  - destruct (Model.array (world st) a !! index); simpl;
      [apply untouched_put_fresh | apply untouched_refl].
Qed.

Lemma Model_sequence_untouched : sequence_within Model.class untouched.
Proof.
  split; [| split].
  - intros f query st [= <-]. apply untouched_refl.
  - intros c st. change (untouched st (Model.next c st).2). unfold Model.next.
    destruct c as [q|rest|a index]; [destruct (truthy q) | |]; apply Model_loop_untouched.
  - intros i st. apply untouched_refl.
Qed.

(** C7. [findOne (query)] makes at most one pull on the sequence
    [findIterator (query)] hands out and then leaves it; it emits no hook
    and invokes no storage primitive, and the store changes only as the
    calls on the sequence change it.  It returns the record the first pull
    yields, and nothing when the first pull finds the sequence done. *)
Theorem findOne_pulls_at_most_once {W I} (C : Subclass.t W I) query (st : store W) :
  (∀ o st' t,
     Static.findOne C query st = (o, st', t) →
     (pulls t ≤ 1)%nat ∧ emitted t = [] ∧ primitives t = [] ∧
     (∀ model, o = Return (Some model) →
               t = [FindIterator query; Next (Yielded model); IterReturn]) ∧
     (o = Return None → t = [FindIterator query; Next Done]) ∧
     (∀ model, In (Next (Yielded model)) t → o = Return (Some model) ∨ ∀ x, o ≠ Return x) ∧
     (In (Next Done) t → o = Return None) ∧
     (∀ R : relation (store W), PreOrder R → sequence_within C R → R st st')) ∧
  (∀ f i s1 s2,
     Subclass.findIterator C = Some f →
     f query st = (Return i, s1) →
     (Subclass.next C i s1 = (Return None, s2) →
      Static.findOne C query st = (Return None, s2, [FindIterator query; Next Done])) ∧
     (∀ model i' s3,
        Subclass.next C i s1 = (Return (Some (model, i')), s2) →
        Subclass.return_ C i' s2 = (Return (), s3) →
        Static.findOne C query st
          = (Return (Some model), s3,
             [FindIterator query; Next (Yielded model); IterReturn]))).
Proof.
  split.
  - intros o st' t H.
    destruct (findOne_inv C query st o st' t H)
      as (_ & HR & [(model & -> & ->) | [(-> & ->) | (Hno & [-> | [-> | (model & ->)]])]]).
    all: split; [unfold pulls; simpl; lia |]; do 2 (split; [done |]).
    all: split; [intros m ?; simplify_eq; done || by destruct (Hno (Some m)) |].
    all: split; [intros ?; simplify_eq; done || by destruct (Hno None) |].
    all: split; [| split; [| done]]; simpl.
    all: try (intros; by right).
    all: intuition (simplify_eq; auto).
  - intros f i s1 s2 Hf Hq. split.
    + intros Hn. unfold Static.findOne, Static.findIterator, bind, invoke; simpl.
      by rewrite Hf, Hq; simpl; rewrite Hn.
    + intros model i' s3 Hn Hr.
      unfold Static.findOne, Static.findIterator, bind, invoke; simpl.
      rewrite Hf, Hq; simpl; rewrite Hn; simpl.
      unfold Static.return_, invoke. by rewrite Hr.
Qed.

Lemma findOne_pulls_at_most_once_witness :
  (Static.findOne Model.class (Scenario.object [("test", VStr "findOne")])
     Scenario.one_stored).2
  = [FindIterator (Scenario.object [("test", VStr "findOne")]); Next (Yielded 0); IterReturn] ∧
  untouched Scenario.one_stored
    (Static.findOne Model.class (Scenario.object [("test", VStr "findOne")])
       Scenario.one_stored).1.2.
Proof.
  assert (Static.findOne Model.class (Scenario.object [("test", VStr "findOne")])
            Scenario.one_stored
          = (Return (Some 0),
             (Static.findOne Model.class (Scenario.object [("test", VStr "findOne")])
                Scenario.one_stored).1.2,
             (Static.findOne Model.class (Scenario.object [("test", VStr "findOne")])
                Scenario.one_stored).2)) as H
    by (vm_compute; reflexivity).
  destruct (proj1 (findOne_pulls_at_most_once Model.class _ _) _ _ _ H)
    as (_ & _ & _ & Ht & _ & _ & _ & HR).
  split.
  - by apply Ht.
  - apply HR; [apply _ | apply Model_sequence_untouched].
Defined.

(** ** Computations that never throw [RecordNotFound] *)

Lemma quiet_ret {W A} (a : A) : quiet (ret a : M W A).
Proof. by intros st. Qed.

Lemma quiet_throw {W A} (e : error) : e ≠ RecordNotFound → quiet (throw e : M W A).
Proof. intros He st; simpl. congruence. Qed.

Lemma quiet_bind {W A B} (m : M W A) (f : A → M W B) :
  quiet m → (∀ a, quiet (f a)) → quiet (bind m f).
Proof.
  intros Hm Hf st. unfold bind. specialize (Hm st).
  destruct (m st) as [[[a|e|] s1] t1]; simpl in *; [| congruence | done].
  specialize (Hf a s1). by destruct (f a s1) as [[r s2] t2].
Qed.

Lemma quiet_invoke {W A} (o : obs) (d : DM W A) : quiet (invoke o d).
Proof. intros st. unfold invoke. by destruct (d st) as [[a|e|] s1]. Qed.

Lemma quiet_emit {W I} (C : Subclass.t W I) this event : quiet (emit C this event).
Proof. unfold emit. destruct (Subclass.emit C); [apply quiet_invoke | by intros st]. Qed.

Lemma quiet_primitive {W} (override : option (loc → DM W value)) name this :
  quiet (primitive override name this).
Proof. unfold primitive. destruct override; [apply quiet_invoke | by intros st]. Qed.

Lemma quiet_findOne {W I} (C : Subclass.t W I) query : quiet (Static.findOne C query).
Proof.
  intros st. destruct (Static.findOne C query st) as [[o s1] t1] eqn:E.
  by destruct (findOne_inv C query st o s1 t1 E) as [? _].
Qed.

Ltac solve_quiet :=
  repeat first
    [ apply quiet_ret
    | apply quiet_throw; done
    | apply quiet_emit
    | apply quiet_primitive
    | apply quiet_findOne
    | by intros ?
    | apply quiet_bind; [| intros ?]
    | match goal with |- quiet (if ?b then _ else _) => destruct b end
    | match goal with |- quiet (match ?x with Some _ => _ | None => _ end) => destruct x end ].

Lemma quiet_update {W I} (C : Subclass.t W I) this data : quiet (update C this data).
Proof. unfold update, _update. solve_quiet. Qed.

Lemma quiet_remove {W I} (C : Subclass.t W I) this : quiet (remove C this).
Proof. unfold remove, _remove. solve_quiet. Qed.

(** ** Operations on one record that returned *)

Lemma update_Return_inv {W I} (C : Subclass.t W I) this data (st : store W) r st' t :
  update C this data st = (Return r, st', t) →
  is_new (heap st) this = false ∧ r = this ∧ t = update_trace this.
Proof.
  intros H. destruct (is_new (heap st) this) eqn:Hnew.
  - unfold update in H. by rewrite (bind_pure _ _ _ _ (isNew_run this st)), Hnew in H.
  - by destruct (update_inv C this data st r st' t Hnew H) as (-> & -> & _).
Qed.

Lemma remove_Return_inv {W I} (C : Subclass.t W I) this (st : store W) r st' t :
  remove C this st = (Return r, st', t) →
  is_new (heap st) this = false ∧ r = this ∧ t = remove_trace this.
Proof.
  intros H. destruct (is_new (heap st) this) eqn:Hnew.
  - unfold remove in H. by rewrite (bind_pure _ _ _ _ (isNew_run this st)), Hnew in H.
  - by destruct (remove_inv C this st r st' t Hnew H) as (-> & -> & _).
Qed.

(** [findOne] then an operation on the record found. *)
Lemma one_inv {W I} (C : Subclass.t W I) (op : loc → M W loc) query (st : store W) x st' t :
  (∀ doc s r s' t', op doc s = (Return r, s', t') → r = doc) →
  (doc <- Static.findOne C query ;;
   match doc with
   | None => ret None
   | Some doc => r <- op doc ;; ret (Some r)
   end) st = (Return x, st', t) →
  (x = None ∧ Static.findOne C query st = (Return None, st', t)) ∨
  (∃ doc s1 t1 t2,
     x = Some doc ∧ Static.findOne C query st = (Return (Some doc), s1, t1) ∧
     op doc s1 = (Return doc, st', t2) ∧ t = t1 ++ t2).
Proof.
  intros Hop H. step H. destruct a as [doc|].
  - right. step H. injection H as <- <- <-.
    pose proof (Hop _ _ _ _ _ Hstep0) as ->.
    exists doc, s, t0, t. by rewrite app_nil_r.
  - left. injection H as <- <- <-. by rewrite app_nil_r.
Qed.

(** A [ById] operation on top of what its [One] counterpart answered. *)
Lemma by_id_inv {W} (one : M W (option loc)) (st : store W) :
  quiet one →
  let by_id := doc <- one ;;
               match doc with
               | None => throw RecordNotFound
               | Some doc => ret doc
               end in
  (∀ st' t, one st = (Return None, st', t) ↔ by_id st = (Throw RecordNotFound, st', t)) ∧
  (∀ doc st' t, one st = (Return (Some doc), st', t) ↔ by_id st = (Return doc, st', t)).
Proof.
  intros Hq by_id. subst by_id. unfold bind. specialize (Hq st).
  destruct (one st) as [[[[doc|]|e|] s1] t1]; simpl in *; rewrite ?app_nil_r.
  all: split; [intros st' t | intros d st' t]; split; intros H; simplify_eq; done || congruence.
Qed.

(** ** The collection algorithms *)

(** C8. [findById], [updateById] and [removeById] throw [RecordNotFound]
    exactly when [findOne ({ id })], [updateOne ({ id }, data)] and
    [removeOne ({ id })] return nothing, and then no hook was emitted and
    no primitive invoked; the [One] operations themselves never throw
    [RecordNotFound]; when the [One] operation returns a record, the
    [ById] operation returns that record: the one found, after its
    [update (data)] or its [remove ()]. *)
Theorem by_id_raises_not_found {W I} (C : Subclass.t W I) (id data : value) (st : store W) :
  let query := VObj {["id" := id]} in
  (∀ q, quiet (Static.findOne C q) ∧ quiet (Static.updateOne C q data) ∧
        quiet (Static.removeOne C q)) ∧
  (∀ st' t,
     (Static.findOne C query st = (Return None, st', t)
      ↔ Static.findById C id st = (Throw RecordNotFound, st', t)) ∧
     (Static.updateOne C query data st = (Return None, st', t)
      ↔ Static.updateById C id data st = (Throw RecordNotFound, st', t)) ∧
     (Static.removeOne C query st = (Return None, st', t)
      ↔ Static.removeById C id st = (Throw RecordNotFound, st', t))) ∧
  (∀ st' t,
     Static.findById C id st = (Throw RecordNotFound, st', t) ∨
     Static.updateById C id data st = (Throw RecordNotFound, st', t) ∨
     Static.removeById C id st = (Throw RecordNotFound, st', t) →
     emitted t = [] ∧ primitives t = [] ∧
     Static.findOne C query st = (Return None, st', t)) ∧
  (∀ doc st' t,
     (Static.findOne C query st = (Return (Some doc), st', t)
      ↔ Static.findById C id st = (Return doc, st', t)) ∧
     (Static.updateOne C query data st = (Return (Some doc), st', t)
      ↔ Static.updateById C id data st = (Return doc, st', t)) ∧
     (Static.removeOne C query st = (Return (Some doc), st', t)
      ↔ Static.removeById C id st = (Return doc, st', t))) ∧
  (∀ doc st' t,
     Static.updateById C id data st = (Return doc, st', t) →
     ∃ s1 t1,
       Static.findOne C query st = (Return (Some doc), s1, t1) ∧
       update C doc data s1 = (Return doc, st', update_trace doc) ∧
       t = t1 ++ update_trace doc) ∧
  (∀ doc st' t,
     Static.removeById C id st = (Return doc, st', t) →
     ∃ s1 t1,
       Static.findOne C query st = (Return (Some doc), s1, t1) ∧
       remove C doc s1 = (Return doc, st', remove_trace doc) ∧
       t = t1 ++ remove_trace doc).
Proof.
  intros query.
  assert (∀ q, quiet (Static.updateOne C q data)) as Hqu.
  { intros q. unfold Static.updateOne. solve_quiet. }
  assert (∀ q, quiet (Static.removeOne C q)) as Hqr.
  { intros q. unfold Static.removeOne. solve_quiet. }
  pose proof (by_id_inv (Static.findOne C query) st (quiet_findOne C query)) as [Hf1 Hf2].
  pose proof (by_id_inv (Static.updateOne C query data) st (Hqu query)) as [Hu1 Hu2].
  pose proof (by_id_inv (Static.removeOne C query) st (Hqr query)) as [Hr1 Hr2].
  assert (∀ st' t, Static.findOne C query st = (Return None, st', t) →
                   emitted t = [] ∧ primitives t = []) as Hnone.
  { intros st' t H.
    by destruct (findOne_inv C query st _ _ _ H)
      as (_ & _ & [(m & ? & ->) | [(_ & ->) | (Hno & _)]]); [| | destruct (Hno None)]. }
  assert (∀ st' t, Static.updateOne C query data st = (Return None, st', t) →
                   Static.findOne C query st = (Return None, st', t)) as Hun.
  { intros st' t H. apply one_inv in H as [[_ H] | (doc & ? & ? & ? & ? & _)]; [done | done |].
    intros doc s r s' t' Hup. by apply update_Return_inv in Hup as (_ & -> & _). }
  assert (∀ st' t, Static.removeOne C query st = (Return None, st', t) →
                   Static.findOne C query st = (Return None, st', t)) as Hrn.
  { intros st' t H. apply one_inv in H as [[_ H] | (doc & ? & ? & ? & ? & _)]; [done | done |].
    intros doc s r s' t' Hrm. by apply remove_Return_inv in Hrm as (_ & -> & _). }
  split; [intros q; split; [apply quiet_findOne | done] |].
  split; [intros st' t; split; [apply Hf1 | split; [apply Hu1 | apply Hr1]] |].
  split.
  { intros st' t [H | [H | H]].
    - apply Hf1 in H. destruct (Hnone _ _ H). done.
    - apply Hu1, Hun in H. destruct (Hnone _ _ H). done.
    - apply Hr1, Hrn in H. destruct (Hnone _ _ H). done. }
  split; [intros doc st' t; split; [apply Hf2 | split; [apply Hu2 | apply Hr2]] |].
  split.
  - intros doc st' t H. apply Hu2 in H.
    apply one_inv in H as [[? _] | (d & s1 & t1 & t2 & [= <-] & Hfind & Hup & ->)]; [done | |].
    + pose proof (update_Return_inv _ _ _ _ _ _ _ Hup) as (_ & _ & ->). by exists s1, t1.
    + intros d s r s' t' Hup. by apply update_Return_inv in Hup as (_ & -> & _).
  - intros doc st' t H. apply Hr2 in H.
    apply one_inv in H as [[? _] | (d & s1 & t1 & t2 & [= <-] & Hfind & Hrm & ->)]; [done | |].
    + pose proof (remove_Return_inv _ _ _ _ _ _ Hrm) as (_ & _ & ->). by exists s1, t1.
    + intros d s r s' t' Hrm. by apply remove_Return_inv in Hrm as (_ & -> & _).
Qed.

Lemma by_id_raises_not_found_witness :
  (Static.removeById Model.class (VNum 4) Scenario.three_stored).1.1 = Throw RecordNotFound ∧
  emitted (Static.removeById Model.class (VNum 4) Scenario.three_stored).2 = [] ∧
  (Static.removeById Model.class (VNum 2) Scenario.three_stored).1.1 = Return 0 ∧
  (Static.removeById Model.class (VNum 2) Scenario.three_stored).2
  = [FindIterator (VObj {["id" := VNum 2]}); Next (Yielded 0); IterReturn] ++ remove_trace 0.
Proof.
  assert (Static.removeById Model.class (VNum 4) Scenario.three_stored
          = (Throw RecordNotFound,
             (Static.removeById Model.class (VNum 4) Scenario.three_stored).1.2,
             (Static.removeById Model.class (VNum 4) Scenario.three_stored).2)) as H4
    by (vm_compute; reflexivity).
  assert (Static.removeById Model.class (VNum 2) Scenario.three_stored
          = (Return 0,
             (Static.removeById Model.class (VNum 2) Scenario.three_stored).1.2,
             (Static.removeById Model.class (VNum 2) Scenario.three_stored).2)) as H2
    by (vm_compute; reflexivity).
  destruct (by_id_raises_not_found Model.class (VNum 4) VUndefined Scenario.three_stored)
    as (_ & _ & Hnone & _).
  destruct (by_id_raises_not_found Model.class (VNum 2) VUndefined Scenario.three_stored)
    as (_ & _ & _ & _ & _ & Hsome).
  destruct (Hnone _ _ (or_intror (or_intror H4))) as (He & _ & _).
  destruct (Hsome _ _ _ H2) as (s1 & t1 & Hfind & _ & Ht).
  split; [by rewrite H4 |]. split; [exact He |]. split; [by rewrite H2 |].
  rewrite Ht. f_equal.
  apply (f_equal snd) in Hfind. simpl in Hfind. rewrite <- Hfind. vm_compute. reflexivity.
Defined.

(** ** Draining a wrapping generator *)

Lemma closing_Return_inv {W A} (m : M W A) (c : M W ()) st r st' t :
  closing m c st = (Return r, st', t) → m st = (Return r, st', t).
Proof.
  unfold closing. destruct (m st) as [[[a|e|] s1] t1]; [done | | done].
  by destruct (c s1) as [[[[]|e'|] s2] t2].
Qed.

Lemma collect_fuel_mono {W G} (pull : G → M W (option (loc * G))) fuel :
  ∀ it acc st items st' t,
    Static.collect fuel pull it acc st = (Return items, st', t) →
    ∀ fuel', fuel ≤ fuel' → Static.collect fuel' pull it acc st = (Return items, st', t).
Proof.
  induction fuel as [|fuel IH]; intros it acc st items st' t H fuel' Hle; [done |].
  destruct fuel' as [|fuel']; [lia |]. simpl in *. unfold bind in *.
  destruct (pull it st) as [[[[[item it']|]|e|] s1] t1]; try done.
  destruct (Static.collect fuel pull it' (acc ++ [item]) s1) as [[r s2] t2] eqn:E.
  injection H as -> -> <-.
  by rewrite (IH _ _ _ _ _ _ E fuel') by lia.
Qed.

(** The fuel a drain needs is the number of its pulls. *)
Lemma collect_fuel_exact {W G} (pull : G → M W (option (loc * G))) fuel :
  ∀ it acc st items st' t,
    Static.collect fuel pull it acc st = (Return items, st', t) →
    ∃ new,
      items = acc ++ new ∧ S (length new) ≤ fuel ∧
      Static.collect (S (length new)) pull it acc st = (Return items, st', t).
Proof.
  induction fuel as [|fuel IH]; intros it acc st items st' t H; [done |].
  simpl in H. unfold bind in H.
  destruct (pull it st) as [[[[[item it']|]|e|] s1] t1] eqn:E; try done.
  - destruct (Static.collect fuel pull it' (acc ++ [item]) s1) as [[r s2] t2] eqn:E2.
    injection H as -> -> <-.
    destruct (IH _ _ _ _ _ _ E2) as (new & -> & Hle & Hrun).
    exists (item :: new). split; [by rewrite <- app_assoc |]. split; [simpl; lia |].
    change (Static.collect (S (length (item :: new))) pull it acc st)
      with (bind (pull it)
              (λ x, match x with
                    | None => ret acc
                    | Some (item, it') =>
                        Static.collect (S (length new)) pull it' (acc ++ [item])
                    end) st).
    unfold bind. by rewrite E, Hrun.
  - injection H as <- <- <-. exists []. split; [by rewrite app_nil_r |].
    split; [simpl; lia |]. simpl. unfold bind. by rewrite E.
Qed.

Section Drain.
Context {W I : Type} (C : Subclass.t W I).
Context (query : value) (body : loc → M W loc) (cycle : loc → list obs).
Hypothesis body_cycle :
  ∀ item s r s' t, body item s = (Return r, s', t) → r = item ∧ t = cycle item.

Lemma round_inv it st x st' t :
  Static.round C body it st = (Return x, st', t) →
  (x = None ∧ t = [Next Done]) ∨
  (∃ item it', x = Some (item, Static.SuspendedYield it') ∧
               t = Next (Yielded item) :: cycle item).
Proof.
  intros H. unfold Static.round in H. step H.
  destruct (next_inv C _ _ _ _ _ Hstep) as (-> & _ & _).
  destruct a as [[item it']|].
  - right. step H. injection H as <- <- <-.
    apply closing_Return_inv, body_cycle in Hstep0 as [-> ->].
    exists item, it'. by rewrite app_nil_r.
  - left. by injection H as <- <- <-.
Qed.


End Drain.

Lemma emitted_app (t1 t2 : list obs) : emitted (t1 ++ t2) = emitted t1 ++ emitted t2.
Proof. apply flat_map_app. Qed.

Lemma primitives_app (t1 t2 : list obs) :
  primitives (t1 ++ t2) = primitives t1 ++ primitives t2.
Proof. apply flat_map_app. Qed.

Lemma pulls_app (t1 t2 : list obs) : pulls (t1 ++ t2) = pulls t1 + pulls t2.
Proof. unfold pulls. by rewrite List.filter_app, length_app. Qed.




(** ** Creating from a merged mapping *)


Lemma put_put {W} this (f g : gmap string value) (st : store W) :
  put this f (put this g st) = put this f st.
Proof. unfold put; simpl. by rewrite insert_insert_eq. Qed.

Lemma after_nil {W A} (run : settled error A * store W * list obs) : after [] run = run.
Proof. by destruct run as [[r s] t]. Qed.

Lemma build_run {W} (data : value) (st : store W) :
  Static.build data st
  = (Return (fresh (dom (heap st))),
     put (fresh (dom (heap st))) (set_fields data VUndefined ∅) st, []).
Proof.
  unfold Static.build, bind, Static.new, set; simpl.
  rewrite put_put. unfold fields_of. by rewrite lookup_insert_eq.
Qed.










(** * Further properties of the engine *)

(** ** Property keys *)

Lemma string_app_cons (a : Ascii.ascii) (s t : string) : String a s +:+ t = String a (s +:+ t).
Proof. reflexivity. Qed.

Lemma string_app_assoc (s1 s2 s3 : string) : (s1 +:+ s2) +:+ s3 = s1 +:+ s2 +:+ s3.
Proof. induction s1 as [|a s1 IH]; [done |]. rewrite !string_app_cons. by f_equal. Qed.

Lemma pretty_N_go_suffix (x : N) :
  ∀ s, ∃ p, pretty_N_go x s = p +:+ s.
Proof.
  induction (N.lt_wf_0 x) as [x _ IH]; intros s.
  destruct (decide (x = 0)%N) as [-> | Hx].
  - exists "". by rewrite pretty_N_go_0.
  - rewrite pretty_N_go_step by lia.
    destruct (IH (x `div` 10)%N) with (s := String (pretty_N_char (x `mod` 10)) s)
      as [p Hp]; [apply N.div_lt; lia |].
    exists (p +:+ String (pretty_N_char (x `mod` 10)) ""). rewrite Hp.
    by rewrite string_app_assoc.
Qed.

(** The decimal notation of an integer ends with a digit. *)
Lemma pretty_Z_ends_with_digit (n : Z) :
  ∃ p d, pretty n = p +:+ String (pretty_N_char d) "".
Proof.
  assert (∀ x : positive, ∃ p d, pretty (N.pos x) = p +:+ String (pretty_N_char d) "") as HN.
  { intros x. unfold pretty, pretty_N. rewrite decide_False by done.
    rewrite pretty_N_go_step by lia.
    destruct (pretty_N_go_suffix (N.pos x `div` 10)
                (String (pretty_N_char (N.pos x `mod` 10)) "")) as [p Hp].
    by exists p, (N.pos x `mod` 10)%N. }
  destruct n as [|x|x].
  - by exists "", 0%N.
  - apply HN.
  - destruct (HN x) as (p & d & Hp). exists ("-" +:+ p), d.
    change (pretty (Z.neg x)) with ("-" +:+ pretty (N.pos x)). by rewrite Hp.
Qed.

Lemma ends_with_digit_not_id (p : string) (d : N) :
  p +:+ String (pretty_N_char d) "" ≠ "id" ∧ p +:+ String (pretty_N_char d) "" ≠ "".
Proof.
  split; [| by destruct p].
  destruct p as [|a [|b [|c p]]]; rewrite ?string_app_cons; intros [=]; subst.
  unfold pretty_N_char in *. by repeat case_match.
Qed.

(** The key [set] writes under, for a truthy key that is not an object, is
    never the empty string, and is ['id'] for the string ['id'] only. *)
Lemma to_property_key_truthy (key : value) :
  truthy key = true → typeof_object key = false →
  to_property_key key ≠ "" ∧ (to_property_key key = "id" → key = VStr "id").
Proof.
  destruct key as [| |[]|n|s|m]; simpl; try done.
  - intros _ _. destruct (pretty_Z_ends_with_digit n) as (p & d & ->).
    by destruct (ends_with_digit_not_id p d).
  - intros Hs _. split; [by intros -> | by intros ->].
Qed.

(** ** The field bag, again *)

Lemma truthy_object (key : value) :
  truthy key = true → typeof_object key = true → ∃ m, key = VObj m.
Proof. destruct key; try done. by eexists. Qed.

Lemma set_fields_key (key v : value) (f : gmap string value) :
  truthy key = true → typeof_object key = false →
  set_fields key v f = <[to_property_key key := v]> f.
Proof. intros Ht Ho. unfold set_fields, assign_key. by rewrite Ht, Ho. Qed.


(** X1. [set] never writes under the empty key, whatever it is given: a
    falsy key is ignored, the entry of a mapping under the empty key is
    skipped, and every other key is turned into a string that is not
    empty.  So a record fresh from the constructor has no field under the
    empty key. *)
Theorem set_never_writes_empty_key {W} this (key v data : value) (st : store W) :
  set_fields key v (fields_of (heap st) this) !! "" = fields_of (heap st) this !! "" ∧
  fields_of (heap (set this key v st).1.2) this !! "" = fields_of (heap st) this !! "" ∧
  fields_of (heap (Static.build data st).1.2) (fresh (dom (heap st))) !! "" = None.
Proof.
  assert (∀ k x f, set_fields k x f !! "" = f !! "") as H.
  { intros k x f. destruct (truthy k) eqn:Ht; [| by rewrite set_fields_falsy].
    destruct (typeof_object k) eqn:Ho.
    - destruct (truthy_object k Ht Ho) as [m ->].
      by rewrite set_fields_object, merged_lookup_empty_key.
    - rewrite set_fields_key by done.
      destruct (to_property_key_truthy k Ht Ho) as [Hne _].
      by rewrite lookup_insert_ne. }
  split; [apply H |]. split.
  - unfold set; cbn [fst snd]. rewrite fields_of_put, decide_True by done. apply H.
  - rewrite build_run; cbn [fst snd]. rewrite fields_of_put, decide_True by done.
    by rewrite H.
Qed.

Lemma set_never_writes_empty_key_witness :
  fields_of (heap (set 0 (VStr "") (VNum 1) Scenario.unsaved).1.2) 0 !! ""
  = fields_of (heap Scenario.unsaved) 0 !! "".
Proof.
  exact (proj1 (proj2 (set_never_writes_empty_key 0 (VStr "") (VNum 1) VUndefined
                         Scenario.unsaved))).
Defined.







(** ** Every run of a life cycle *)

Lemma bind_inv {W A B} (m : M W A) (f : A → M W B) st o st' t :
  bind m f st = (o, st', t) →
  (∃ a s1 t1 t2, m st = (Return a, s1, t1) ∧ f a s1 = (o, st', t2) ∧ t = t1 ++ t2) ∨
  (∃ e, m st = (Throw e, st', t) ∧ o = Throw e) ∨
  (m st = (Pending, st', t) ∧ o = Pending).
Proof.
  unfold bind. destruct (m st) as [[[a|e|] s1] t1].
  - destruct (f a s1) as [[r s2] t2] eqn:E. intros [= <- <- <-].
    left. by exists a, s1, t1, t2.
  - intros [= <- <- <-]. right; left. by exists e.
  - intros [= <- <- <-]. by right; right.
Qed.

Lemma within_ret {W A} (a : A) : runs_within (ret a : M W A) [].
Proof. intros st o st' t [= <- <- <-]. by split; [| split]. Qed.

Lemma within_step {W A B} (m : M W A) (f : A → M W B) (o : obs) (T : list obs) :
  (∀ st r st' t, m st = (r, st', t) →
                 t = [o] ∧ ∀ e, r = Throw e →
                                e ≠ RecordNotFound ∧ ∀ action, e ≠ UnsavedModel action) →
  (∀ a, runs_within (f a) T) →
  runs_within (bind m f) (o :: T).
Proof.
  intros Hm Hf st r st' t H.
  apply bind_inv in H as [(a & s1 & t1 & t2 & Hrun & Hrest & ->) | [(e & Hrun & ->) | [Hrun ->]]].
  - destruct (Hm _ _ _ _ Hrun) as [-> _].
    destruct (Hf a _ _ _ _ Hrest) as (Hpre & Hret & Hthrow).
    split; [by apply (prefix_cons o) |]. split; [| done].
    intros b Hb. by rewrite (Hret b Hb).
  - destruct (Hm _ _ _ _ Hrun) as [-> Hthrow].
    split; [apply (prefix_cons o), prefix_nil |]. split; [done |].
    intros e' [= <-]. by apply Hthrow.
  - destruct (Hm _ _ _ _ Hrun) as [-> _].
    split; [apply (prefix_cons o), prefix_nil |]. by split.
Qed.

Lemma within_emit {W I B} (C : Subclass.t W I) this event (f : () → M W B) T :
  runs_within (f ()) T → runs_within (bind (emit C this event) f) (Emit this event :: T).
Proof.
  intros Hf. apply within_step; [| by intros []].
  intros st r st' t H. split; [by apply emit_inv in H as [-> _] |].
  intros e ->. unfold emit in H. destruct (Subclass.emit C) as [g|]; [| done].
  unfold invoke in H. by destruct (g this event st) as [[a|msg|] s1]; simplify_eq.
Qed.

Lemma within_primitive {W B} (override : option (loc → DM W value)) name this
    (f : value → M W B) T :
  (∀ v, runs_within (f v) T) →
  runs_within (bind (primitive override name this) f) (Call this name :: T).
Proof.
  intros Hf. apply within_step; [| done].
  intros st r st' t H. split; [by apply primitive_inv in H |].
  intros e ->. unfold primitive in H. destruct override as [g|]; [| by simplify_eq].
  unfold invoke in H. by destruct (g this st) as [[a|msg|] s1]; simplify_eq.
Qed.

Lemma within_silent {W A B} (m : M W A) (f : A → M W B) T :
  silent m → (∀ a, runs_within (f a) T) → runs_within (bind m f) T.
Proof.
  intros Hm Hf st o st' t H. destruct (Hm st) as (a & s1 & Hrun).
  rewrite (bind_run _ _ _ _ _ _ Hrun), after_nil in H. by apply (Hf a) in H.
Qed.

Lemma silent_set {W} this (key v : value) : silent (set this key v : M W ()).
Proof. intros st. by eexists _, _. Qed.

Lemma silent_merge {W} this (data : value) :
  silent (if truthy data then set this data VUndefined else ret () : M W ()).
Proof. intros st. destruct (truthy data); by eexists _, _. Qed.

Ltac within :=
  repeat first
    [ apply within_ret
    | apply within_emit
    | apply within_primitive; intros ?
    | apply within_silent; [first [apply silent_set | apply silent_merge] | intros ?] ].

Lemma within_create_path {W I} (C : Subclass.t W I) this :
  runs_within
    (emit C this "validate" ;; emit C this "beforeCreate" ;; emit C this "beforeSave" ;;
     r <- _save C this ;; set this r VUndefined ;;
     emit C this "afterSave" ;; emit C this "afterCreate" ;; ret this)
    (create_trace this).
Proof. unfold create_trace, _save. within. Qed.

Lemma within_update_path {W I} (C : Subclass.t W I) this data :
  runs_within
    ((if truthy data then set this data VUndefined else ret ()) ;;
     emit C this "validate" ;; emit C this "beforeUpdate" ;; emit C this "beforeSave" ;;
     r <- _update C this ;; set this r VUndefined ;;
     emit C this "afterSave" ;; emit C this "afterUpdate" ;; ret this)
    (update_trace this).
Proof. unfold update_trace, _update. within. Qed.

Lemma within_fetch_path {W I} (C : Subclass.t W I) this :
  runs_within
    (emit C this "beforeFetch" ;; r <- _fetch C this ;; set this r VUndefined ;;
     emit C this "afterFetch" ;; ret this)
    (fetch_trace this).
Proof. unfold fetch_trace, _fetch. within. Qed.

Lemma within_remove_path {W I} (C : Subclass.t W I) this :
  runs_within
    (emit C this "beforeRemove" ;; _remove C this ;; set this (VStr "id") VUndefined ;;
     emit C this "afterRemove" ;; ret this)
    (remove_trace this).
Proof. unfold remove_trace, _remove. within. Qed.

Lemma guard_new {W I} (C : Subclass.t W I) this data (st : store W) :
  is_new (heap st) this = true →
  fetch C this st = (Throw (UnsavedModel "fetch"), st, []) ∧
  update C this data st = (Throw (UnsavedModel "update"), st, []) ∧
  remove C this st = (Throw (UnsavedModel "remove"), st, []).
Proof.
  intros Hnew. unfold fetch, update, remove.
  by rewrite !(bind_pure _ _ _ _ (isNew_run this st)), Hnew.
Qed.

(** The four operations of a record, past their guard. *)
Lemma life_cycle_paths {W I} (C : Subclass.t W I) this data (st : store W) :
  (is_new (heap st) this = true →
   save C this st
   = (emit C this "validate" ;; emit C this "beforeCreate" ;; emit C this "beforeSave" ;;
      r <- _save C this ;; set this r VUndefined ;;
      emit C this "afterSave" ;; emit C this "afterCreate" ;; ret this) st) ∧
  (is_new (heap st) this = false →
   update C this data st
   = ((if truthy data then set this data VUndefined else ret ()) ;;
      emit C this "validate" ;; emit C this "beforeUpdate" ;; emit C this "beforeSave" ;;
      r <- _update C this ;; set this r VUndefined ;;
      emit C this "afterSave" ;; emit C this "afterUpdate" ;; ret this) st ∧
   fetch C this st
   = (emit C this "beforeFetch" ;; r <- _fetch C this ;; set this r VUndefined ;;
      emit C this "afterFetch" ;; ret this) st ∧
   remove C this st
   = (emit C this "beforeRemove" ;; _remove C this ;; set this (VStr "id") VUndefined ;;
      emit C this "afterRemove" ;; ret this) st).
Proof.
  split; intros H; unfold save, update, fetch, remove;
    by rewrite !(bind_pure _ _ _ _ (isNew_run this st)), H.
Qed.

(** X5. Whatever the hooks and the primitive do, a life cycle makes its
    calls in the order of its sequence and stops at the first that fails:
    the trace of every run of [save], [update], [fetch] and [remove], past
    the guard on [isNew], is an initial segment of the life cycle, the
    whole of it when the operation returns, and then the record returned
    is the record the operation was called on.  What such a run throws is
    what a hook or the primitive threw: never [RecordNotFound], never
    [UnsavedModel]. *)
Theorem life_cycle_stops_at_first_failure {W I} (C : Subclass.t W I) this data
    (st : store W) o st' t :
  let within (T : list obs) :=
    t `prefix_of` T ∧
    (∀ r, o = Return r → r = this ∧ t = T) ∧
    (∀ e, o = Throw e → e ≠ RecordNotFound ∧ ∀ action, e ≠ UnsavedModel action) in
  (is_new (heap st) this = true →
   save C this st = (o, st', t) → within (create_trace this)) ∧
  (is_new (heap st) this = false →
   (save C this st = (o, st', t) → within (update_trace this)) ∧
   (update C this data st = (o, st', t) → within (update_trace this)) ∧
   (fetch C this st = (o, st', t) → within (fetch_trace this)) ∧
   (remove C this st = (o, st', t) → within (remove_trace this))).
Proof.
  intros within. subst within.
  assert (∀ T, (o = Return this ∨ ∀ r, o ≠ Return r) →
               t `prefix_of` T ∧ (∀ a, o = Return a → t = T) ∧
               (∀ e, o = Throw e → e ≠ RecordNotFound ∧ ∀ action, e ≠ UnsavedModel action) →
               t `prefix_of` T ∧ (∀ r, o = Return r → r = this ∧ t = T) ∧
               (∀ e, o = Throw e → e ≠ RecordNotFound ∧ ∀ action, e ≠ UnsavedModel action))
    as Hshape.
  { intros T Hr (Hpre & Hret & Hthrow). split; [done |]. split; [| done].
    intros r Hor. split; [| by eapply Hret].
    destruct Hr as [-> | Hno]; [by injection Hor | by destruct (Hno r)]. }
  assert (∀ (m : M W loc), m st = (o, st', t) →
            (∀ r s' t', m st = (Return r, s', t') → r = this) →
            o = Return this ∨ ∀ r, o ≠ Return r) as Hsame.
  { intros m Hm Hr. destruct o as [r| |]; [| by right | by right].
    left. f_equal. by eapply Hr. }
  destruct (life_cycle_paths C this data st) as [Hnew Hold].
  destruct (life_cycle_paths C this VUndefined st) as [_ Hold0].
  split.
  - intros Hn H. apply Hshape.
    + apply (Hsame _ H). intros r s' t' Hr.
      by destruct (save_new_inv C this st r s' t' Hn Hr) as [-> _].
    + rewrite (Hnew Hn) in H. by apply within_create_path in H.
  - intros Ho. destruct (Hold Ho) as (Hu & Hf & Hr).
    destruct (Hold0 Ho) as (Hu0 & _ & _).
    split; [| split; [| split]]; intros H; apply Hshape.
    + apply (Hsame _ H). intros r s' t' Hret.
      rewrite (save_persisted C this st Ho) in Hret.
      by apply update_Return_inv in Hret as (_ & -> & _).
    + rewrite (save_persisted C this st Ho), Hu0 in H. by apply within_update_path in H.
    + apply (Hsame _ H). intros r s' t' Hret.
      by apply update_Return_inv in Hret as (_ & -> & _).
    + rewrite Hu in H. by apply within_update_path in H.
    + apply (Hsame _ H). intros r s' t' Hret.
      by apply fetch_inv in Hret as (_ & -> & _).
    + rewrite Hf in H. by apply within_fetch_path in H.
    + apply (Hsame _ H). intros r s' t' Hret.
      by apply remove_Return_inv in Hret as (_ & -> & _).
    + rewrite Hr in H. by apply within_remove_path in H.
Qed.

Lemma life_cycle_stops_at_first_failure_witness :
  is_new (heap Scenario.placeholder) 0 = false ∧
  (remove base 0 Scenario.placeholder).2 `prefix_of` remove_trace 0.
Proof.
  assert (is_new (heap Scenario.placeholder) 0 = false) as Hold by (vm_compute; reflexivity).
  split; [exact Hold |].
  destruct (life_cycle_stops_at_first_failure base 0 VUndefined Scenario.placeholder
              (remove base 0 Scenario.placeholder).1.1
              (remove base 0 Scenario.placeholder).1.2
              (remove base 0 Scenario.placeholder).2) as [_ H].
  destruct (H Hold) as (_ & _ & _ & Hr).
  apply Hr. by destruct (remove base 0 Scenario.placeholder) as [[? ?] ?].
Defined.

(** X6. [UnsavedModel] is thrown by the guard alone: [fetch], [update] and
    [remove] throw it, with their own name as action, exactly when the
    record is new; [save] never throws it; and none of the four throws
    [RecordNotFound]. *)
Theorem unsaved_model_exactly_when_new {W I} (C : Subclass.t W I) this data
    (st : store W) (action : string) :
  ((fetch C this st).1.1 = Throw (UnsavedModel action)
   ↔ is_new (heap st) this = true ∧ action = "fetch") ∧
  ((update C this data st).1.1 = Throw (UnsavedModel action)
   ↔ is_new (heap st) this = true ∧ action = "update") ∧
  ((remove C this st).1.1 = Throw (UnsavedModel action)
   ↔ is_new (heap st) this = true ∧ action = "remove") ∧
  (save C this st).1.1 ≠ Throw (UnsavedModel action) ∧
  (fetch C this st).1.1 ≠ Throw RecordNotFound ∧
  (update C this data st).1.1 ≠ Throw RecordNotFound ∧
  (remove C this st).1.1 ≠ Throw RecordNotFound ∧
  (save C this st).1.1 ≠ Throw RecordNotFound.
Proof.
  assert (∀ (m : M W loc) T, runs_within m T →
            (m st).1.1 ≠ Throw (UnsavedModel action) ∧ (m st).1.1 ≠ Throw RecordNotFound)
    as Hw.
  { intros m T Hm. destruct (m st) as [[o s'] t'] eqn:E.
    destruct (Hm _ _ _ _ E) as (_ & _ & Hthrow). simpl.
    split; intros ->; destruct (Hthrow _ eq_refl) as [H1 H2]; [by eapply H2 | done]. }
  destruct (life_cycle_paths C this data st) as [Hnew Hold].
  destruct (life_cycle_paths C this VUndefined st) as [_ Hold0].
  destruct (is_new (heap st) this) eqn:Hn.
  - destruct (guard_new C this data st Hn) as (Hf & Hu & Hr).
    rewrite Hf, Hu, Hr, (Hnew eq_refl). simpl.
    destruct (Hw _ _ (within_create_path C this)) as [Hs1 Hs2].
    split; [split; [by intros [= <-] | by intros [_ ->]] |].
    split; [split; [by intros [= <-] | by intros [_ ->]] |].
    split; [split; [by intros [= <-] | by intros [_ ->]] |].
    done.
  - destruct (Hold eq_refl) as (Hu & Hf & Hr). destruct (Hold0 eq_refl) as (Hu0 & _ & _).
    rewrite (save_persisted C this st Hn), Hu0, Hu, Hf, Hr.
    destruct (Hw _ _ (within_update_path C this data)) as [Hu1 Hu2].
    destruct (Hw _ _ (within_update_path C this VUndefined)) as [Hs1 Hs2].
    destruct (Hw _ _ (within_fetch_path C this)) as [Hf1 Hf2].
    destruct (Hw _ _ (within_remove_path C this)) as [Hr1 Hr2].
    split; [split; [done | by intros [? _]] |].
    split; [split; [done | by intros [? _]] |].
    split; [split; [done | by intros [? _]] |].
    done.
Qed.

Lemma unsaved_model_exactly_when_new_witness :
  (fetch Model.class 0 Scenario.unsaved).1.1 = Throw (UnsavedModel "fetch") ∧
  is_new (heap Scenario.unsaved) 0 = true.
Proof.
  assert ((fetch Model.class 0 Scenario.unsaved).1.1 = Throw (UnsavedModel "fetch")) as H
    by (vm_compute; reflexivity).
  split; [exact H |].
  exact (proj1 (proj1 (proj1 (unsaved_model_exactly_when_new Model.class 0 VUndefined
                                Scenario.unsaved "fetch")) H)).
Defined.

(** ** Stopping before the primitive *)






(** ** [fetch], [remove] and [create] *)




(** X9. A record that was removed is new for the engine: once
    [remove ()] has returned (the hooks only observing), [fetch ()],
    [update (data)] and a second [remove ()] on it are rejected with
    [UnsavedModel], without a hook or a primitive, and a [save ()] of it
    takes the create path. *)
Theorem removed_record_is_new_again {W I} (C : Subclass.t W I) this data
    (st : store W) r st' t :
  observers C →
  remove C this st = (Return r, st', t) →
  fetch C this st' = (Throw (UnsavedModel "fetch"), st', []) ∧
  update C this data st' = (Throw (UnsavedModel "update"), st', []) ∧
  remove C this st' = (Throw (UnsavedModel "remove"), st', []) ∧
  ∀ o s2 t2, save C this st' = (o, s2, t2) →
             t2 `prefix_of` create_trace this ∧ ∀ x, o = Return x → t2 = create_trace this.
Proof.
  intros Hobs H.
  destruct (remove_Return_inv C this st r st' t H) as (Hold & -> & ->).
  destruct (remove_inv C this st this st' _ Hold H) as (_ & _ & s1 & v & s2 & _ & Hheap).
  destruct (Hheap Hobs) as [_ H2].
  assert (is_new (heap st') this = true) as Hnew.
  { rewrite H2, is_new_put. by rewrite lookup_insert_eq. }
  destruct (guard_new C this data st' Hnew) as (Hf & Hu & Hr).
  do 3 (split; [done |]).
  intros o s3 t3 Hs.
  destruct (life_cycle_paths C this data st') as [Hpath _]. rewrite (Hpath Hnew) in Hs.
  apply within_create_path in Hs as (Hpre & Hret & _). split; [done |].
  intros x Hx. by eapply Hret.
Qed.

Lemma removed_record_is_new_again_witness :
  remove Model.class 0 Scenario.removed
  = (Throw (UnsavedModel "remove"), Scenario.removed, []).
Proof.
  assert (remove Model.class 0 Scenario.saved
          = (Return 0, Scenario.removed, (remove Model.class 0 Scenario.saved).2)) as H
    by (vm_compute; reflexivity).
  exact (proj1 (proj2 (proj2 (removed_record_is_new_again Model.class 0 VUndefined
                                _ _ _ _ Model_observers H)))).
Defined.



(** ** [find], [count] and [findOne] *)

Lemma collect_next_inv {W I} (C : Subclass.t W I) fuel :
  ∀ it acc (st : store W) items st' t,
    Static.collect fuel (Static.next C) it acc st = (Return items, st', t) →
    ∃ new,
      items = acc ++ new ∧
      t = map (λ r, Next (Yielded r)) new ++ [Next Done] ∧
      ∀ R : relation (store W), PreOrder R → sequence_within C R → R st st'.
Proof.
  induction fuel as [|fuel IH]; intros it acc st items st' t H; [done |].
  simpl in H. step H.
  destruct (next_inv C _ _ _ _ _ Hstep) as (-> & _ & HR).
  destruct a as [[item it']|].
  - apply IH in H as (new & -> & -> & HR'). exists (item :: new).
    split; [by rewrite <- app_assoc |]. split; [done |].
    intros R HP HC. transitivity s; [apply HR | apply HR']; done || apply _.
  - injection H as <- <- <-. exists []. split; [by rewrite app_nil_r |]. split; [done |].
    intros R HP HC. apply HR; done || apply _.
Qed.

Lemma pulls_yielded (items : list loc) :
  pulls (map (λ r, Next (Yielded r)) items) = length items ∧
  emitted (map (λ r, Next (Yielded r)) items) = [] ∧
  primitives (map (λ r, Next (Yielded r)) items) = [].
Proof.
  induction items as [|r items (IH1 & IH2 & IH3)]; [done |].
  change (map ?f (r :: items)) with ([f r] ++ map f items).
  rewrite pulls_app, emitted_app, primitives_app, IH1, IH2, IH3. done.
Qed.

(** X11. A [find (query)] that returns pulled the sequence of
    [findIterator (query)] until it was done and returns the records in
    the order they were pulled; it emitted no hook and invoked no storage
    primitive, it changed the store only as the calls on the sequence
    changed it, and it is the same run with any fuel that covers its
    pulls, one more than the records found. *)
Theorem find_drains_in_order {W I} (C : Subclass.t W I) (query : value) (fuel : nat)
    (st : store W) (items : list loc) (st' : store W) (t : list obs) :
  Static.find C query fuel st = (Return items, st', t) →
  t = FindIterator query :: map (λ r, Next (Yielded r)) items ++ [Next Done] ∧
  emitted t = [] ∧ primitives t = [] ∧
  pulls t = S (length items) ∧
  S (length items) ≤ fuel ∧
  (∀ fuel', S (length items) ≤ fuel' →
            Static.find C query fuel' st = (Return items, st', t)) ∧
  (∀ R : relation (store W), PreOrder R → sequence_within C R → R st st').
Proof.
  intros H. unfold Static.find in H. step H.
  destruct (findIterator_inv C _ _ _ _ _ Hstep) as (-> & _ & HR).
  destruct (collect_fuel_exact _ _ _ _ _ _ _ _ H) as (new & [= ->] & Hle & Hrun).
  pose proof (collect_fuel_mono _ _ _ _ _ _ _ _ Hrun) as Hmono.
  destruct (collect_next_inv C _ _ _ _ _ _ _ H) as (new' & [= <-] & -> & HR').
  destruct (pulls_yielded new) as (Hp & He & Hc).
  split; [done |].
  change ([FindIterator query] ++ ?l) with (FindIterator query :: l).
  change (FindIterator query :: ?l) with ([FindIterator query] ++ l).
  rewrite !emitted_app, !primitives_app, !pulls_app, Hp, He, Hc.
  do 2 (split; [done |]). split; [change (pulls [FindIterator query]) with 0;
                                   change (pulls [Next Done]) with 1; lia |].
  split; [done |]. split.
  - intros fuel' Hf. unfold Static.find.
    by rewrite (bind_run _ _ _ _ _ _ Hstep), (Hmono fuel' Hf).
  - intros R HP HC. transitivity s; [apply HR | apply HR']; done || apply _.
Qed.

Lemma find_drains_in_order_witness :
  (Static.find Model.class (Scenario.object [("x", VNum 1)]) 3 Scenario.two_stored).2
  = [FindIterator (Scenario.object [("x", VNum 1)]); Next (Yielded 0); Next (Yielded 1);
     Next Done].
Proof.
  assert (Static.find Model.class (Scenario.object [("x", VNum 1)]) 3 Scenario.two_stored
          = (Return [0; 1],
             (Static.find Model.class (Scenario.object [("x", VNum 1)]) 3
                Scenario.two_stored).1.2,
             (Static.find Model.class (Scenario.object [("x", VNum 1)]) 3
                Scenario.two_stored).2)) as H
    by (vm_compute; reflexivity).
  exact (proj1 (find_drains_in_order Model.class _ _ _ _ _ _ H)).
Defined.

Lemma count_loop_collect {W I} (C : Subclass.t W I) fuel :
  ∀ it acc (st : store W),
    Static.count_loop C fuel it (length acc) st
    = (settled_map length (Static.collect fuel (Static.next C) it acc st).1.1,
       (Static.collect fuel (Static.next C) it acc st).1.2,
       (Static.collect fuel (Static.next C) it acc st).2).
Proof.
  induction fuel as [|fuel IH]; intros it acc st; [done |].
  simpl. unfold bind.
  destruct (Static.next C it st) as [[[[[item it']|]|e|] s1] t1]; try done.
  replace (length acc + 1) with (length (acc ++ [item])) by (rewrite length_app; simpl; lia).
  rewrite IH.
  by destruct (Static.collect fuel (Static.next C) it' (acc ++ [item]) s1) as [[o s2] t2].
Qed.

(** X12. [count (query)] is the length of what [find (query)] returns: in
    every run, with the same fuel and from the same store, the two make
    the same calls and leave the same store, and [count] returns the number
    of records [find] returns, throws what [find] throws, or does not
    settle as [find] does not. *)
Theorem count_is_length_of_find {W I} (C : Subclass.t W I) (query : value) (fuel : nat)
    (st : store W) :
  Static.count C query fuel st
  = (settled_map length (Static.find C query fuel st).1.1,
     (Static.find C query fuel st).1.2,
     (Static.find C query fuel st).2).
Proof.
  unfold Static.count, Static.find, bind.
  destruct (Static.findIterator C query st) as [[[it|e|] s1] t1]; try done.
  change (Static.count_loop C fuel it 0 s1)
    with (Static.count_loop C fuel it (length (@nil loc)) s1).
  rewrite (count_loop_collect C fuel it [] s1).
  by destruct (Static.collect fuel (Static.next C) it [] s1) as [[o s2] t2].
Qed.

Lemma count_is_length_of_find_witness :
  (Static.count Model.class (Scenario.object [("x", VNum 1)]) 3 Scenario.two_stored).1.1
  = settled_map length
      (Static.find Model.class (Scenario.object [("x", VNum 1)]) 3 Scenario.two_stored).1.1.
Proof.
  by rewrite (count_is_length_of_find Model.class (Scenario.object [("x", VNum 1)]) 3
                Scenario.two_stored).
Defined.

(** X13. [findOne] returns the head of what [find] returns: when
    [find (query)] returns no record, [findOne (query)] from the same store
    returns nothing, with the same calls and the same store; when [find]
    returns records, a [findOne] that returns hands back the first of
    them. *)
Theorem findOne_is_head_of_find {W I} (C : Subclass.t W I) (query : value) (fuel : nat)
    (st : store W) (items : list loc) (st' : store W) (t : list obs) :
  Static.find C query fuel st = (Return items, st', t) →
  (items = [] → Static.findOne C query st = (Return None, st', t)) ∧
  (∀ x s2 t2, Static.findOne C query st = (Return x, s2, t2) → x = head items) ∧
  (∀ r rest, items = r :: rest →
             In (Next (Yielded r)) (Static.findOne C query st).2 ∧
             (Static.findOne C query st).1.1 ≠ Return None).
Proof.
  intros H. unfold Static.find in H. step H.
  destruct fuel as [|fuel]; [done |]. simpl in H. step H.
  destruct (findIterator_inv C _ _ _ _ _ Hstep) as (-> & _ & _).
  destruct (next_inv C _ _ _ _ _ Hstep0) as (-> & _ & _).
  unfold Static.findOne, bind. rewrite Hstep, Hstep0.
  destruct a0 as [[item it']|].
  - destruct (collect_next_inv C _ _ _ _ _ _ _ H) as (new & -> & _ & _).
    split; [done |].
    destruct (Static.return_ C it' s0) as [[[[]|e|] s3] t3]; simpl.
    + split; [by intros x s2 t2' [= <- _ _] |].
      intros r rest [= <- _]. split; [by right; left | done].
    + split; [done |]. intros r rest [= <- _]. split; [by right; left | done].
    + split; [done |]. intros r rest [= <- _]. split; [by right; left | done].
  - injection H as <- <- <-. split; [by intros _ |]. split; [| done].
    by intros x s2 t2' [= <- _ _].
Qed.

Lemma findOne_is_head_of_find_witness :
  In (Next (Yielded 0))
     (Static.findOne Model.class (Scenario.object [("x", VNum 1)]) Scenario.two_stored).2 ∧
  (Static.findOne Model.class (Scenario.object [("x", VNum 1)]) Scenario.two_stored).1.1
  ≠ Return None.
Proof.
  assert (Static.find Model.class (Scenario.object [("x", VNum 1)]) 3 Scenario.two_stored
          = (Return [0; 1],
             (Static.find Model.class (Scenario.object [("x", VNum 1)]) 3
                Scenario.two_stored).1.2,
             (Static.find Model.class (Scenario.object [("x", VNum 1)]) 3
                Scenario.two_stored).2)) as H
    by (vm_compute; reflexivity).
  exact (proj2 (proj2 (findOne_is_head_of_find Model.class _ _ _ _ _ _ H)) 0 [1] eq_refl).
Defined.

(** ** One record, one step *)




(** X15. The generators of [updateIterator] and [removeIterator] are
    lazy: [findIterator] is called at the first [next ()], and each
    [next ()] that returns made one pull on its sequence and ran the whole
    life cycle of the record pulled, and of no other record, before it
    yielded that record; a generator that is done pulls no more. *)
Theorem generator_runs_one_life_cycle_a_step {W I} (C : Subclass.t W I)
    (query data : value) (g : Static.generator I) (st : store W)
    (x : option (loc * Static.generator I)) (st' : store W) (t : list obs) :
  let step (cycle : loc → list obs) :=
    t = match g with Static.SuspendedStart => [FindIterator query] | _ => [] end
        ++ match x with
           | Some (r, _) => Next (Yielded r) :: cycle r
           | None => match g with Static.Completed => [] | _ => [Next Done] end
           end ∧
    pulls t = match g with Static.Completed => 0 | _ => 1 end ∧
    primitives t = match x with
                   | Some (r, _) => primitives (cycle r)
                   | None => []
                   end ∧
    match x with
    | Some (_, g') => ∃ it, g' = Static.SuspendedYield it
    | None => True
    end in
  (Static.updateIterator_next C query data g st = (Return x, st', t) → step update_trace) ∧
  (Static.removeIterator_next C query g st = (Return x, st', t) → step remove_trace).
Proof.
  intros step. subst step.
  assert (∀ (body : loc → M W loc) (cycle : loc → list obs),
            (∀ item s r s' t, body item s = (Return r, s', t) → r = item ∧ t = cycle item) →
            (∀ r, pulls (cycle r) = 0) →
            Static.resume C query body g st = (Return x, st', t) →
            t = match g with Static.SuspendedStart => [FindIterator query] | _ => [] end
                ++ match x with
                   | Some (r, _) => Next (Yielded r) :: cycle r
                   | None => match g with Static.Completed => [] | _ => [Next Done] end
                   end ∧
            pulls t = match g with Static.Completed => 0 | _ => 1 end ∧
            primitives t = match x with
                           | Some (r, _) => primitives (cycle r)
                           | None => []
                           end ∧
            match x with
            | Some (_, g') => ∃ it, g' = Static.SuspendedYield it
            | None => True
            end) as Hstep.
  { intros body cycle Hbody Hp H.
    assert (∀ r, pulls (Next (Yielded r) :: cycle r) = 1) as Hp1.
    { intros r. change (Next (Yielded r) :: cycle r) with ([Next (Yielded r)] ++ cycle r).
      by rewrite pulls_app, Hp. }
    destruct g as [|it|]; simpl in H.
    - step H. destruct (findIterator_inv C _ _ _ _ _ Hstep) as (-> & _ & _).
      apply (round_inv C body cycle Hbody) in H as [[-> ->] | (item & it' & -> & ->)].
      + done.
      + split; [done |]. rewrite pulls_app, Hp1. split; [done |]. split; [done |]. by exists it'.
    - apply (round_inv C body cycle Hbody) in H as [[-> ->] | (item & it' & -> & ->)].
      + done.
      + split; [done |]. split; [apply Hp1 |]. split; [done |]. by exists it'.
    - by injection H as <- <- <-. }
  split.
  - apply Hstep; [| done].
    intros item s r s' t' Hr. by apply update_Return_inv in Hr as (_ & -> & ->).
  - apply Hstep; [| done].
    intros item s r s' t' Hr. by apply remove_Return_inv in Hr as (_ & -> & ->).
Qed.

Lemma generator_runs_one_life_cycle_a_step_witness :
  (Static.removeIterator_next Model.class (Scenario.object [("x", VNum 1)])
     Static.SuspendedStart Scenario.two_stored).2
  = [FindIterator (Scenario.object [("x", VNum 1)]); Next (Yielded 0)] ++ remove_trace 0.
Proof.
  destruct (Static.removeIterator_next Model.class (Scenario.object [("x", VNum 1)])
              Static.SuspendedStart Scenario.two_stored) as [[o s] t] eqn:E.
  assert (∃ g', o = Return (Some (0, g'))) as [g' ->].
  { assert (o = (Static.removeIterator_next Model.class (Scenario.object [("x", VNum 1)])
                   Static.SuspendedStart Scenario.two_stored).1.1) as -> by (by rewrite E).
    vm_compute. by eexists. }
  exact (proj1 (proj2
           (generator_runs_one_life_cycle_a_step Model.class _ VUndefined _ _ _ _ _) E)).
Defined.

(** ** A bulk operation that fails *)

Lemma findIterator_Throw_inv {W I} (C : Subclass.t W I) query (st : store W) e st' t :
  Static.findIterator C query st = (Throw e, st', t) →
  t = [FindIterator query] ∧ e ≠ RecordNotFound ∧ ∀ a, e ≠ UnsavedModel a.
Proof.
  intros H. destruct (findIterator_inv C _ _ _ _ _ H) as (-> & _ & _).
  split; [done |]. revert H. unfold Static.findIterator.
  destruct (Subclass.findIterator C) as [f|]; [| done].
  unfold bind, invoke, ret. destruct (f query st) as [[i|msg|] s1]; intros [= <- _]; done.
Qed.

Lemma next_Throw_inv {W I} (C : Subclass.t W I) it (st : store W) e st' t :
  Static.next C it st = (Throw e, st', t) →
  t = [Next Failed] ∧ e ≠ RecordNotFound ∧ ∀ a, e ≠ UnsavedModel a.
Proof.
  intros H. destruct (next_inv C _ _ _ _ _ H) as (-> & _ & _).
  split; [done |]. revert H. destruct it as [|i]; simpl; [by intros [= <- _] |].
  destruct (Subclass.next C i st) as [[[[item i']|]|msg|] s1]; intros [= <- _]; done.
Qed.

(** What a life cycle does, guard included. *)
Lemma life_cycle_any {W I} (C : Subclass.t W I) this data (st : store W) o st' t :
  let within (run : settled error loc * store W * list obs) (T : list obs) (action : string) :=
    run = (o, st', t) →
    t `prefix_of` T ∧
    (∀ r, o = Return r → r = this ∧ t = T) ∧
    (∀ e, o = Throw e →
          e ≠ RecordNotFound ∧ ∀ a, e = UnsavedModel a → a = action ∧ t = []) in
  within (update C this data st) (update_trace this) "update" ∧
  within (remove C this st) (remove_trace this) "remove".
Proof.
  intros within. subst within. cbv beta.
  destruct (is_new (heap st) this) eqn:Hnew.
  - destruct (guard_new C this data st Hnew) as (_ & -> & ->).
    split; intros [= <- <- <-]; (split; [apply prefix_nil |]); (split; [done |]);
      intros e [= <-]; (split; [done |]); by intros a [= <-].
  - destruct (life_cycle_paths C this data st) as [_ Hold].
    destruct (Hold Hnew) as (-> & _ & ->).
    split; intros H.
    + pose proof (within_update_path C this data st o st' t H) as (Hpre & Hret & Hthrow).
      split; [done |]. split.
      * intros r ->. split; [| by eapply Hret].
        destruct (life_cycle_paths C this data st) as [_ Hold'].
        destruct (Hold' Hnew) as (Hu & _). rewrite <- Hu in H.
        by apply update_Return_inv in H as (_ & -> & _).
      * intros e ->. destruct (Hthrow e eq_refl) as [Hn Hu]. split; [done |].
        intros a ->. by destruct (Hu a).
    + pose proof (within_remove_path C this st o st' t H) as (Hpre & Hret & Hthrow).
      split; [done |]. split.
      * intros r ->. split; [| by eapply Hret].
        destruct (life_cycle_paths C this data st) as [_ Hold'].
        destruct (Hold' Hnew) as (_ & _ & Hr). rewrite <- Hr in H.
        by apply remove_Return_inv in H as (_ & -> & _).
      * intros e ->. destruct (Hthrow e eq_refl) as [Hn Hu]. split; [done |].
        intros a ->. by destruct (Hu a).
Qed.

Section Interrupted.
Context {W I : Type} (C : Subclass.t W I).
Context (query : value) (body : loc → M W loc) (cycle : loc → list obs) (action : string).
Hypothesis body_any :
  ∀ item s o s' t,
    body item s = (o, s', t) →
    t `prefix_of` cycle item ∧
    (∀ r, o = Return r → r = item ∧ t = cycle item) ∧
    (∀ e, o = Throw e →
          e ≠ RecordNotFound ∧ ∀ a, e = UnsavedModel a → a = action ∧ t = []).

Lemma body_any_cycle item s r s' t :
  body item s = (Return r, s', t) → r = item ∧ t = cycle item.
Proof. intros H. destruct (body_any _ _ _ _ _ H) as (_ & Hr & _). by apply Hr. Qed.

Lemma round_Throw_inv it st e st' t :
  Static.round C body it st = (Throw e, st', t) →
  e ≠ RecordNotFound ∧
  ((t = [Next Failed] ∧ ∀ a, e ≠ UnsavedModel a) ∨
   ∃ item p, t = Next (Yielded item) :: p ++ [IterReturn] ∧
             p `prefix_of` cycle item ∧
             ∀ a, e = UnsavedModel a → a = action ∧ p = []).
Proof.
  intros H. unfold Static.round in H.
  apply bind_inv in H as [(x & s1 & t1 & t2 & Hn & H & ->) | [(e' & H & [= <-]) | [_ [=]]]].
  - destruct (next_inv C _ _ _ _ _ Hn) as (-> & _ & _).
    destruct x as [[item it']|]; [| done].
    apply bind_inv in H as [(r & s2 & t3 & t4 & _ & [=] & _) | [(e' & H & [= <-]) | [_ [=]]]].
    unfold closing in H.
    destruct (body item s1) as [[[r|e'|] s2] t3] eqn:Hb; [done | | done].
    destruct (body_any _ _ _ _ _ Hb) as (Hpre & _ & Hthrow).
    destruct (Hthrow e' eq_refl) as [Hnf Hu].
    destruct (Static.return_ C it' s2) as [[o3 s3] t4] eqn:Hr.
    destruct (return_inv C _ _ _ _ _ Hr) as (-> & _ & _).
    assert (e' = e ∧ t2 = t3 ++ [IterReturn]) as [-> ->]
      by (destruct o3; by simplify_eq).
    split; [done |]. right. by exists item, t3.
  - apply next_Throw_inv in H as (-> & Hnf & Hu). split; [done |]. by left.
Qed.

Lemma collect_resume_Throw_inv fuel :
  ∀ g acc st e st' t,
    Static.collect fuel (Static.resume C query body) g acc st = (Throw e, st', t) →
    e ≠ RecordNotFound ∧
    ∃ done tail,
      t = match g with Static.SuspendedStart => [FindIterator query] | _ => [] end
          ++ flat_map (λ r, Next (Yielded r) :: cycle r) done ++ tail ∧
      interrupted cycle action e done tail ∧
      (g ≠ Static.SuspendedStart → tail ≠ []).
Proof.
  induction fuel as [|fuel IH]; intros g acc st e st' t H; [done |].
  simpl in H.
  apply bind_inv in H as [(x & s1 & t1 & t2 & Hx & H & ->) | [(e' & H & [= <-]) | [_ [=]]]].
  - assert (∃ item it', x = Some (item, Static.SuspendedYield it') ∧
                        t1 = match g with
                             | Static.SuspendedStart => [FindIterator query]
                             | _ => []
                             end ++ Next (Yielded item) :: cycle item)
      as (item & it' & -> & ->).
    { destruct g as [|it|]; simpl in Hx.
      - step Hx. destruct (findIterator_inv C _ _ _ _ _ Hstep) as (-> & _ & _).
        apply (round_inv C body cycle body_any_cycle) in Hx
          as [[-> ->] | (item & it' & -> & ->)]; [done |]. by exists item, it'.
      - apply (round_inv C body cycle body_any_cycle) in Hx
          as [[-> ->] | (item & it' & -> & ->)]; [done |]. by exists item, it'.
      - injection Hx as <- <- <-. done. }
    apply IH in H as (Hnf & done & tail & -> & Hint & Htail).
    split; [done |]. exists (item :: done), tail.
    split; [simpl; by rewrite <- ?app_assoc |].
    assert (tail ≠ []) as Hne by (by apply Htail).
    split; [| done].
    destruct Hint as [(_ & -> & _) | [H2 | H3]]; [done | by right; left | by right; right].
  - destruct g as [|it|]; simpl in H.
    + apply bind_inv in H as [(it & s1 & t1 & t2 & Hf & H & ->) | [(e' & H & [= <-]) | [_ [=]]]].
      * destruct (findIterator_inv C _ _ _ _ _ Hf) as (-> & _ & _).
        apply round_Throw_inv in H as [Hnf H]. split; [done |].
        exists []. exists t2. split; [done |]. split; [| done].
        destruct H as [[-> Hu] | (item & p & -> & Hp & Hu)].
        -- by right; left.
        -- right; right. by exists item, p.
      * apply findIterator_Throw_inv in H as (-> & Hnf & Hu). split; [done |].
        exists [], []. split; [done |]. split; [by left | done].
    + apply round_Throw_inv in H as [Hnf H]. split; [done |].
      exists []. exists t. split; [done |].
      destruct H as [[-> Hu] | (item & p & -> & Hp & Hu)].
      * split; [by right; left | done].
      * split; [right; right; by exists item, p | done].
    + done.
Qed.

End Interrupted.

Lemma pulls_cycles (cycle : loc → list obs) (done : list loc) :
  (∀ r, pulls (cycle r) = 0) →
  pulls (flat_map (λ r, Next (Yielded r) :: cycle r) done) = length done.
Proof.
  intros Hp. induction done as [|r done IH]; [done |].
  change (flat_map ?f (r :: done)) with (f r ++ flat_map f done). cbv beta.
  change (Next (Yielded r) :: cycle r) with ([Next (Yielded r)] ++ cycle r).
  rewrite !pulls_app, Hp, IH. done.
Qed.

Lemma pulls_interrupted (cycle : loc → list obs) action e done tail :
  (∀ r, pulls (cycle r) = 0) →
  interrupted cycle action e done tail → pulls tail ≤ 1.
Proof.
  intros Hp [(_ & -> & _) | [[-> _] | (r & p & -> & [k Hk] & _)]]; [unfold pulls; simpl; lia | unfold pulls; simpl; lia |].
  change (Next (Yielded r) :: p ++ [IterReturn]) with ([Next (Yielded r)] ++ p ++ [IterReturn]).
  rewrite !pulls_app. specialize (Hp r). rewrite Hk, pulls_app in Hp.
  change (pulls [Next (Yielded r)]) with 1. change (pulls [IterReturn]) with 0. lia.
Qed.

(** X16. A bulk [update (query, data)] or [remove (query)] that throws
    stopped at the first failure and left the remaining records alone: its
    trace is the call of [findIterator], the whole life cycles of the
    records it got through, in the order of the pulls, and then either
    nothing more ([findIterator] threw), or the pull that threw, or the
    pull of one more record, the calls its life cycle made before it
    failed, and the [return ()] that closes the sequence.  It made at most
    one pull more than the records it got through.  The error is never
    [RecordNotFound]; it is [UnsavedModel] only when the record pulled last
    was new, and then no hook of that record was emitted. *)
Theorem bulk_stops_at_first_failure {W I} (C : Subclass.t W I) (query data : value)
    (fuel : nat) (st : store W) (e : error) (st' : store W) (t : list obs) :
  let stopped (cycle : loc → list obs) (action : string) :=
    e ≠ RecordNotFound ∧
    ∃ done tail,
      t = FindIterator query :: flat_map (λ r, Next (Yielded r) :: cycle r) done ++ tail ∧
      interrupted cycle action e done tail ∧
      pulls t ≤ S (length done) in
  (Static.update C query data fuel st = (Throw e, st', t) → stopped update_trace "update") ∧
  (Static.remove C query fuel st = (Throw e, st', t) → stopped remove_trace "remove").
Proof.
  intros stopped. subst stopped. cbv beta.
  assert (∀ (body : loc → M W loc) (cycle : loc → list obs) (action : string),
            (∀ item s o s' t,
               body item s = (o, s', t) →
               t `prefix_of` cycle item ∧
               (∀ r, o = Return r → r = item ∧ t = cycle item) ∧
               (∀ e, o = Throw e →
                     e ≠ RecordNotFound ∧ ∀ a, e = UnsavedModel a → a = action ∧ t = [])) →
            (∀ r, pulls (cycle r) = 0) →
            Static.collect fuel (Static.resume C query body) Static.SuspendedStart [] st
            = (Throw e, st', t) →
            e ≠ RecordNotFound ∧
            ∃ done tail,
              t = FindIterator query
                  :: flat_map (λ r, Next (Yielded r) :: cycle r) done ++ tail ∧
              interrupted cycle action e done tail ∧
              pulls t ≤ S (length done)) as Hbulk.
  { intros body cycle action Hbody Hp H.
    apply (collect_resume_Throw_inv C query body cycle action Hbody) in H
      as (Hnf & done & tail & -> & Hint & _).
    split; [done |]. exists done, tail. split; [done |]. split; [done |].
    change ([FindIterator query] ++ ?l) with ([FindIterator query] ++ l).
    rewrite !pulls_app, (pulls_cycles cycle done Hp).
    pose proof (pulls_interrupted cycle action e done tail Hp Hint).
    change (pulls [FindIterator query]) with 0. lia. }
  split; intros H.
  - apply (Hbulk (λ item, update C item data) update_trace "update"); [| done | exact H].
    intros item s o s' t' Hrun.
    by apply (proj1 (life_cycle_any C item data s o s' t')).
  - apply (Hbulk (remove C) remove_trace "remove"); [| done | exact H].
    intros item s o s' t' Hrun.
    by apply (proj2 (life_cycle_any C item data s o s' t')).
Qed.

Lemma bulk_stops_at_first_failure_witness :
  ∃ done tail,
    (Static.update Model.class VUndefined (Scenario.object [("x", VNum 2)]) 2
       (Model.reset [{["x" := VNum 1]}])).2
    = FindIterator VUndefined
      :: flat_map (λ r, Next (Yielded r) :: update_trace r) done ++ tail ∧
    interrupted update_trace "update" (UnsavedModel "update") done tail ∧
    pulls (Static.update Model.class VUndefined (Scenario.object [("x", VNum 2)]) 2
             (Model.reset [{["x" := VNum 1]}])).2 ≤ S (length done).
Proof.
  assert (Static.update Model.class VUndefined (Scenario.object [("x", VNum 2)]) 2
            (Model.reset [{["x" := VNum 1]}])
          = (Throw (UnsavedModel "update"),
             (Static.update Model.class VUndefined (Scenario.object [("x", VNum 2)]) 2
                (Model.reset [{["x" := VNum 1]}])).1.2,
             (Static.update Model.class VUndefined (Scenario.object [("x", VNum 2)]) 2
                (Model.reset [{["x" := VNum 1]}])).2)) as H
    by (vm_compute; reflexivity).
  exact (proj2 (proj1 (bulk_stops_at_first_failure Model.class _ _ _ _ _ _ _) H)).
Defined.

(** ** The records a life cycle writes *)

Lemma writes_only_bind {W A B} this (m : M W A) (f : A → M W B) :
  writes_only this m → (∀ a, writes_only this (f a)) → writes_only this (bind m f).
Proof.
  intros Hm Hf st l Hl. unfold bind. specialize (Hm st l Hl).
  destruct (m st) as [[[a|e|] s1] t1]; [| done | done].
  specialize (Hf a s1 l Hl). destruct (f a s1) as [[r s2] t2]. simpl in *. congruence.
Qed.

Lemma writes_only_kept {W A} this (m : M W A) :
  (∀ st, heap (m st).1.2 = heap st) → writes_only this m.
Proof. intros H st l _. by rewrite H. Qed.

Lemma writes_only_emit {W I} (C : Subclass.t W I) this event :
  observers C → writes_only this (emit C this event).
Proof.
  intros Hobs. apply writes_only_kept. intros st.
  destruct (emit C this event st) as [[r s1] t1] eqn:E.
  apply emit_inv in E as [_ E]. by apply E.
Qed.

Lemma writes_only_primitive {W} (override : option (loc → DM W value)) name this :
  (∀ f, override = Some f → ∀ st, heap (f this st).2 = heap st) →
  writes_only this (primitive override name this).
Proof.
  intros H. apply writes_only_kept. intros st. unfold primitive.
  destruct override as [f|]; [| done].
  specialize (H f eq_refl st). unfold invoke. by destruct (f this st) as [[a|e|] s1].
Qed.

Lemma writes_only_set {W} this (key v : value) : writes_only this (set this key v : M W ()).
Proof. intros st l Hl. unfold set, put; simpl. by rewrite lookup_insert_ne. Qed.

Lemma writes_only_isNew {W} this : writes_only this (isNew this : M W bool).
Proof. by apply writes_only_kept. Qed.

Lemma Model_storage_only : storage_only Model.class.
Proof.
  split; [apply Model_observers |].
  intros f [[= <-] | [[= <-] | [[= <-] | [= <-]]]] this st; simpl.
  - unfold Model._fetch. by destruct (Model.with_id _ _).
  - done.
  - unfold Model._update. destruct (Model.with_id _ _); [done |].
    unfold Model._fetch; simpl. by destruct (Model.with_id _ _).
  - done.
Qed.

(** X17. A life cycle writes the record it is called on and no other:
    when the hooks and the primitives of the subclass work on the backing
    store only, every run of [save], [update], [fetch] and [remove] on a
    record, whether it returns, throws or does not settle, leaves the
    fields of every other record as they were. *)
Theorem life_cycle_writes_only_its_record {W I} (C : Subclass.t W I) (this : loc)
    (data : value) :
  storage_only C →
  writes_only this (save C this) ∧
  writes_only this (update C this data) ∧
  writes_only this (fetch C this) ∧
  writes_only this (remove C this).
Proof.
  intros [Hobs Hprim].
  assert (∀ d, writes_only this (update C this d)) as Hupdate.
  { intros d. unfold update, _update.
    repeat first
      [ apply writes_only_emit; exact Hobs
      | apply writes_only_set
      | apply writes_only_isNew
      | apply writes_only_primitive; intros f Hf; apply Hprim; tauto
      | by apply writes_only_kept
      | apply writes_only_bind; [| intros ?]
      | match goal with |- writes_only _ (if ?b then _ else _) => destruct b end ]. }
  split; [| split; [exact (Hupdate data) | split]].
  - unfold save, _save.
    repeat first
      [ apply writes_only_emit; exact Hobs
      | apply writes_only_set
      | apply writes_only_isNew
      | apply Hupdate
      | apply writes_only_primitive; intros f Hf; apply Hprim; tauto
      | by apply writes_only_kept
      | apply writes_only_bind; [| intros ?]
      | match goal with |- writes_only _ (if ?b then _ else _) => destruct b end ].
  - unfold fetch, _fetch.
    repeat first
      [ apply writes_only_emit; exact Hobs
      | apply writes_only_set
      | apply writes_only_isNew
      | apply writes_only_primitive; intros f Hf; apply Hprim; tauto
      | by apply writes_only_kept
      | apply writes_only_bind; [| intros ?]
      | match goal with |- writes_only _ (if ?b then _ else _) => destruct b end ].
  - unfold remove, _remove.
    repeat first
      [ apply writes_only_emit; exact Hobs
      | apply writes_only_set
      | apply writes_only_isNew
      | apply writes_only_primitive; intros f Hf; apply Hprim; tauto
      | by apply writes_only_kept
      | apply writes_only_bind; [| intros ?]
      | match goal with |- writes_only _ (if ?b then _ else _) => destruct b end ].
Qed.

Lemma life_cycle_writes_only_its_record_witness :
  storage_only Model.class ∧
  heap (remove Model.class 0
          (Static.find Model.class (Scenario.object [("x", VNum 1)]) 3
             Scenario.two_stored).1.2).1.2 !! 1
  = heap (Static.find Model.class (Scenario.object [("x", VNum 1)]) 3
            Scenario.two_stored).1.2 !! 1.
Proof.
  split; [exact Model_storage_only |].
  destruct (life_cycle_writes_only_its_record Model.class 0 VUndefined Model_storage_only)
    as (_ & _ & _ & H).
  apply H. lia.
Defined.

(** ** The errors of each operation *)



























(** ** The hooks the test suite's [Model] records *)

Lemma logs_kept {A} (m : M Model.statics A) :
  (∀ st, Model.hooks (world (m st).1.2) = Model.hooks (world st) ∧ emitted (m st).2 = []) →
  logs m.
Proof. intros H st. destruct (H st) as [-> ->]. by rewrite app_nil_r. Qed.

Lemma logs_bind {A B} (m : M Model.statics A) (f : A → M Model.statics B) :
  logs m → (∀ a, logs (f a)) → logs (bind m f).
Proof.
  intros Hm Hf st. unfold bind. specialize (Hm st).
  destruct (m st) as [[[a|e|] s1] t1]; [| done | done].
  specialize (Hf a s1). destruct (f a s1) as [[r s2] t2]. simpl in *.
  by rewrite emitted_app, map_app, app_assoc, <- Hm.
Qed.

Lemma logs_emit this event : logs (emit Model.class this event).
Proof. by intros st. Qed.

Lemma logs_primitive this :
  logs (_fetch Model.class this) ∧ logs (_save Model.class this) ∧
  logs (_update Model.class this) ∧ logs (_remove Model.class this).
Proof.
  split; [| split; [| split]]; apply logs_kept; intros st;
    unfold _fetch, _save, _update, _remove, primitive, invoke; simpl.
  - unfold Model._fetch. by destruct (Model.with_id _ _).
  - done.
  - unfold Model._update. destruct (Model.with_id _ _); [done |].
    unfold Model._fetch; simpl. by destruct (Model.with_id _ _).
  - done.
Qed.

Lemma logs_findIterator query : logs (Static.findIterator Model.class query).
Proof. by apply logs_kept. Qed.

Lemma logs_next it : logs (Static.next Model.class it).
Proof.
  apply logs_kept. intros st. destruct it as [|c]; [done |].
  destruct (Static.next Model.class (Overridden c) st) as [[o s1] t1] eqn:E.
  destruct (next_inv Model.class _ _ _ _ _ E) as (-> & _ & HR).
  split; [| done].
  destruct (HR untouched (@untouched_refl _) Model_sequence_untouched) as [Hw _].
  simpl. by rewrite Hw.
Qed.

Lemma logs_return it : logs (Static.return_ Model.class it).
Proof. apply logs_kept. intros st. by destruct it. Qed.

Lemma logs_closing {A} (m : M Model.statics A) it :
  logs m → logs (closing m (Static.return_ Model.class it)).
Proof.
  intros Hm st. unfold closing. specialize (Hm st).
  destruct (m st) as [[[a|e|] s1] t1]; [done | | done].
  pose proof (logs_return it s1) as Hr.
  destruct (Static.return_ Model.class it s1) as [[[[]|e'|] s2] t2]; simpl in *;
    by rewrite emitted_app, map_app, app_assoc, <- Hm.
Qed.

Lemma logs_collect {G} (pull : G → M Model.statics (option (loc * G))) fuel :
  (∀ it, logs (pull it)) → ∀ it acc, logs (Static.collect fuel pull it acc).
Proof.
  intros Hpull. induction fuel as [|fuel IH]; intros it acc; [by apply logs_kept |].
  simpl. apply logs_bind; [apply Hpull |].
  intros [[item it']|]; [apply IH | by apply logs_kept].
Qed.

Lemma logs_count_loop fuel : ∀ it n, logs (Static.count_loop Model.class fuel it n).
Proof.
  induction fuel as [|fuel IH]; intros it n; [by apply logs_kept |].
  simpl. apply logs_bind; [apply logs_next |].
  intros [[item it']|]; [apply IH | by apply logs_kept].
Qed.

Ltac logging :=
  repeat first
    [ apply logs_emit
    | apply logs_primitive
    | apply logs_findIterator
    | apply logs_next
    | apply logs_return
    | apply logs_closing
    | by apply logs_kept
    | apply logs_bind; [| intros ?]
    | match goal with
      | |- logs (if ?b then _ else _) => destruct b
      | |- logs (match ?x with Some _ => _ | None => _ end) => destruct x
      | |- logs (let '(_, _) := ?x in _) => destruct x
      end ].

Lemma logs_update this data : logs (update Model.class this data).
Proof. unfold update. logging. Qed.

Lemma logs_remove this : logs (remove Model.class this).
Proof. unfold remove. logging. Qed.

Lemma logs_fetch this : logs (fetch Model.class this).
Proof. unfold fetch. logging. Qed.

Lemma logs_save this : logs (save Model.class this).
Proof. unfold save. logging. Qed.

Lemma logs_findOne query : logs (Static.findOne Model.class query).
Proof. unfold Static.findOne. logging. Qed.

Lemma logs_create data : logs (Static.create Model.class data).
Proof. unfold Static.create. apply logs_bind; [by apply logs_kept | intros this; apply logs_save]. Qed.

Lemma logs_bulk query (body : loc → M Model.statics loc) fuel :
  (∀ item, logs (body item)) →
  logs (Static.collect fuel (Static.resume Model.class query body) Static.SuspendedStart []).
Proof.
  intros Hbody. apply logs_collect. intros [|it|]; simpl; unfold Static.round.
  - logging. apply Hbody.
  - logging. apply Hbody.
  - by apply logs_kept.
Qed.

(** X19. The [Model] of the test suite records every hook the engine
    emits, in order, and nothing else: after any run of an operation of
    the engine, whether it returns or throws, [Model.hooks] is what it
    was before, followed by the events of the run. *)
Theorem Model_hooks_record_the_events (this : loc) (query data id : value) (fuel : nat) :
  (logs (save Model.class this) ∧ logs (fetch Model.class this) ∧
   logs (update Model.class this data) ∧ logs (remove Model.class this)) ∧
  (logs (Static.create Model.class data) ∧
   logs (Static.findOrCreate Model.class query data) ∧
   logs (Static.createOrUpdate Model.class query data)) ∧
  (logs (Static.findOne Model.class query) ∧ logs (Static.find Model.class query fuel) ∧
   logs (Static.count Model.class query fuel) ∧ logs (Static.findById Model.class id)) ∧
  (logs (Static.updateOne Model.class query data) ∧
   logs (Static.update Model.class query data fuel) ∧
   logs (Static.updateById Model.class id data)) ∧
  (logs (Static.removeOne Model.class query) ∧
   logs (Static.remove Model.class query fuel) ∧
   logs (Static.removeById Model.class id)).
Proof.
  assert (∀ q, logs (Static.updateOne Model.class q data)) as HupdateOne.
  { intros q. unfold Static.updateOne. apply logs_bind; [apply logs_findOne |].
    intros [doc|]; [| by apply logs_kept].
    apply logs_bind; [apply logs_update | by intros r; apply logs_kept]. }
  assert (∀ q, logs (Static.removeOne Model.class q)) as HremoveOne.
  { intros q. unfold Static.removeOne. apply logs_bind; [apply logs_findOne |].
    intros [doc|]; [| by apply logs_kept].
    apply logs_bind; [apply logs_remove | by intros r; apply logs_kept]. }
  repeat split.
  - apply logs_save.
  - apply logs_fetch.
  - apply logs_update.
  - apply logs_remove.
  - apply logs_create.
  - unfold Static.findOrCreate. apply logs_bind; [apply logs_findOne |].
    intros [doc|]; [by apply logs_kept | apply logs_create].
  - unfold Static.createOrUpdate. apply logs_bind; [apply logs_findOne |].
    intros [doc|]; [apply logs_update | apply logs_create].
  - apply logs_findOne.
  - unfold Static.find. apply logs_bind; [apply logs_findIterator |].
    intros it. apply logs_collect, logs_next.
  - unfold Static.count. apply logs_bind; [apply logs_findIterator |].
    intros it. apply logs_count_loop.
  - unfold Static.findById. apply logs_bind; [apply logs_findOne |].
    intros [doc|]; by apply logs_kept.
  - apply HupdateOne.
  - apply logs_bulk. intros item. apply logs_update.
  - unfold Static.updateById. apply logs_bind; [apply HupdateOne |].
    intros [doc|]; by apply logs_kept.
  - apply HremoveOne.
  - apply logs_bulk. intros item. apply logs_remove.
  - unfold Static.removeById. apply logs_bind; [apply HremoveOne |].
    intros [doc|]; by apply logs_kept.
Qed.

Lemma Model_hooks_record_the_events_witness :
  Model.hooks (world (save Model.class 0 Scenario.unsaved).1.2)
  = Model.hooks (world Scenario.unsaved)
    ++ map snd (emitted (save Model.class 0 Scenario.unsaved).2).
Proof.
  destruct (Model_hooks_record_the_events 0 VUndefined VUndefined VUndefined 0)
    as ((H & _) & _).
  exact (H Scenario.unsaved).
Defined.

(** ** The two merges of [findOrCreate] and [createOrUpdate] *)




(** ** What [find] returns on the test suite's [Model] *)





